(** * scg-error: the structured error value and its helpers

    A shallow embedding of [error/error.go], [error/options.go] and the
    file holding [Wrap] and [Ensure].  Go pointers and maps are reference
    types, so the embedding threads an explicit store: a heap of
    [map[string]any] cells and a heap of [Error] structs, both with a bump
    allocator, so that aliasing and identity are what they are in Go.
    The functions that embed the code compute; recursion that follows
    references ([cloneMap] through nested maps, [Error] through causes)
    takes a fuel argument, and the theorems say how much fuel makes the
    call return. *)

From stdpp Require Import gmap strings list fin_maps.
From Stdlib Require Import ZArith String DecimalString.

Set Warnings "-register-all".
Open Scope string_scope.
Open Scope nat_scope.

(** ** Outcomes of a call

    [Ok a]  : the call returns [a];
    [Panic] : the call panics (nil-pointer dereference);
    [Stuck] : the model has no result: the recursion is deeper than the
              fuel that was supplied (in Go: unbounded recursion), or a
              reference names a cell that was never allocated. *)

Inductive result (A : Type) : Type :=
  | Ok (a : A)
  | Panic
  | Stuck.
Arguments Ok {A} a.
Arguments Panic {A}.
Arguments Stuck {A}.

#[global] Instance result_ret : MRet result := fun _ a => Ok a.
#[global] Instance result_bind : MBind result := fun _ _ f r =>
  match r with
  | Ok a => f a
  | Panic => Panic
  | Stuck => Stuck
  end.

Definition is_Ok {A} (r : result A) : Prop := ∃ a, r = Ok a.

(** ** Values of type [any] stored in a context

    [AMap r] is a value whose dynamic type is exactly [map[string]any]:
    [None] is the nil map, [Some a] a reference to cell [a] of the map
    heap.  [ARef] stands for every other reference-like value (slices,
    maps of another type, pointers): the code never looks inside them. *)

Inductive any : Type :=
  | AInt (z : Z)
  | AStr (s : string)
  | ARef (r : nat)
  | AMap (m : option nat).

#[global] Instance any_eq_dec : EqDecision any.
Proof. solve_decision. Defined.

(** ** The heap of [map[string]any] cells *)

Record mheap : Type := MHeap {
  cells : gmap nat (gmap string any);
  next : nat
}.

(** [make(map[string]any, n)] *)
Definition make_map (h : mheap) : mheap * nat :=
  (MHeap (<[next h := ∅]> (cells h)) (S (next h)), next h).

(** [m[k] = v] on a non-nil map reference *)
Definition map_assign (h : mheap) (r : nat) (k : string) (v : any) : mheap :=
  MHeap (alter (fun m => <[k := v]> m) r (cells h)) (next h).

(** [delete(m, k)] *)
Definition map_delete (h : mheap) (r : nat) (k : string) : mheap :=
  MHeap (alter (fun m => delete k m) r (cells h)) (next h).

(** [len(m)]: zero for the nil map *)
Definition len (h : mheap) (r : option nat) : nat :=
  match r with
  | None => 0
  | Some a => match cells h !! a with Some m => size m | None => 0 end
  end.

(** ** [cloneMap] (error.go, lines 112-130)

    The body of the [for k, v := range in] loop; [clone] is the recursive
    call.  The loop only writes to [out] and to cells allocated by the
    nested calls, so it iterates over the entries [in] had on entry. *)

Fixpoint clone_entries (clone : mheap → option nat → result (mheap * option nat))
    (out : nat) (h : mheap) (l : list (string * any)) : result mheap :=
  match l with
  | [] => Ok h
  | (k, v) :: l' =>
    match v with
    | AMap mv =>
      '(h1, c) ← clone h mv;
      clone_entries clone out (map_assign h1 out k (AMap c)) l'
    | _ => clone_entries clone out (map_assign h out k v) l'
    end
  end.

Fixpoint cloneMap (fuel : nat) (h : mheap) (inp : option nat)
    : result (mheap * option nat) :=
  match inp with
  | None => Ok (h, None)
  | Some a =>
    match cells h !! a with
    | None => Stuck
    | Some m =>
      if decide (m = ∅) then Ok (h, None)
      else
        match fuel with
        | 0 => Stuck
        | S fuel' =>
          let '(h1, out) := make_map h in
          h2 ← clone_entries (cloneMap fuel') out h1 (map_to_list m);
          Ok (h2, Some out)
        end
    end
  end.

(** ** Structure of a map, read off the heap

    [denote n h r] unfolds the map under [r] to depth [n]; [TCut] marks
    where the unfolding was stopped.  The nil map and the empty map have
    different denotations ([TNil] and [TMap ∅]), as they are different
    for [reflect.DeepEqual] and for a comparison with [nil]. *)

Inductive tree : Type :=
  | TVal (v : any)
  | TNil
  | TCut
  | TMap (m : gmap string tree).

Fixpoint denote (n : nat) (h : mheap) (r : option nat) : tree :=
  match r with
  | None => TNil
  | Some a =>
    match cells h !! a with
    | None => TCut
    | Some m =>
      match n with
      | 0 => TCut
      | S n' =>
        TMap ((fun v => match v with AMap r' => denote n' h r' | _ => TVal v end) <$> m)
      end
    end
  end.

Definition denote_any (n : nat) (h : mheap) (v : any) : tree :=
  match v with AMap r => denote n h r | _ => TVal v end.

(** The same, with every map of length zero read as the nil map. *)
Fixpoint denote_norm (n : nat) (h : mheap) (r : option nat) : tree :=
  match r with
  | None => TNil
  | Some a =>
    match cells h !! a with
    | None => TCut
    | Some m =>
      if decide (m = ∅) then TNil
      else
        match n with
        | 0 => TCut
        | S n' =>
          TMap ((fun v => match v with AMap r' => denote_norm n' h r' | _ => TVal v end) <$> m)
        end
    end
  end.

Definition denote_norm_any (n : nat) (h : mheap) (v : any) : tree :=
  match v with AMap r => denote_norm n h r | _ => TVal v end.

(** Two maps are structurally equal when they unfold alike to every depth. *)
Definition deep_equal (h1 : mheap) (r1 : option nat) (h2 : mheap) (r2 : option nat) : Prop :=
  ∀ n, denote n h1 r1 = denote n h2 r2.

(** Structural equality up to the normalisation of empty maps done by
    [cloneMap]: [r2] in [h2] is what a clone of [r1] in [h1] looks like. *)
Definition clone_equal (h1 : mheap) (r1 : option nat) (h2 : mheap) (r2 : option nat) : Prop :=
  ∀ n, denote n h2 r2 = denote_norm n h1 r1.

(** [within P d h r]: the map under [r] nests at most [d] levels and all
    its cells, at every level, are allocated and satisfy [P]. *)
Fixpoint within (P : nat → Prop) (d : nat) (h : mheap) (r : option nat) : Prop :=
  match r with
  | None => True
  | Some a =>
    match d with
    | 0 => False
    | S d' =>
      P a ∧ ∃ m, cells h !! a = Some m ∧
        ∀ k r', m !! k = Some (AMap r') → within P d' h r'
    end
  end.

(** No map of length zero occurs at or below [r], down to depth [n]. *)
Fixpoint no_empty (n : nat) (h : mheap) (r : option nat) : Prop :=
  match r with
  | None => True
  | Some a =>
    ∀ m, cells h !! a = Some m →
      m ≠ ∅ ∧
      match n with
      | 0 => True
      | S n' => ∀ k r', m !! k = Some (AMap r') → no_empty n' h r'
      end
  end.

(** [h'] has the same cells as [h] wherever [P] holds. *)
Definition preserves (P : nat → Prop) (h h' : mheap) : Prop :=
  ∀ a, P a → cells h' !! a = cells h !! a.

(** ** Values of the [error] interface

    [NilError]          the nil interface value;
    [PtrError p]        a [*Error]; [PtrError None] is the non-nil interface
                        that holds a nil [*Error];
    [ErrorString id s]  the result of [errors.New(s)], a pointer with
                        identity [id];
    [WrapError id s e]  the result of [fmt.Errorf] with one [%w] operand
                        [e]: message [s], [Unwrap()] returns [e].

    Error types that bring their own [Is] or [As] methods, or unwrap to
    several errors, are outside the model. *)

Inductive error_iface : Type :=
  | NilError
  | PtrError (p : option nat)
  | ErrorString (id : nat) (msg : string)
  | WrapError (id : nat) (msg : string) (inner : error_iface).

#[global] Instance error_iface_eq_dec : EqDecision error_iface.
Proof. solve_decision. Defined.

(** [err == target] on interface values: same dynamic type and same
    pointer. *)
Definition error_eqb (x y : error_iface) : bool :=
  match x, y with
  | NilError, NilError => true
  | PtrError p, PtrError q => bool_decide (p = q)
  | ErrorString i _, ErrorString j _ => bool_decide (i = j)
  | WrapError i _ _, WrapError j _ _ => bool_decide (i = j)
  | _, _ => false
  end.

(** ** The [Error] struct (error.go, lines 21-28)

    [httpStatus] is a Go [int]; the code stores and prints it and does no
    arithmetic on it, so it is a [Z] here.  [context] is a map reference
    ([None] for the nil map), [cause] a value of the [error] interface. *)

Record Error : Type := mkError {
  httpStatus : Z;
  code : string;
  key : string;
  detail : string;
  context : option nat;
  cause : error_iface
}.

(** Assignments to one field. *)
Definition with_httpStatus (e : Error) (status : Z) : Error :=
  mkError status (code e) (key e) (detail e) (context e) (cause e).
Definition with_detail (e : Error) (d : string) : Error :=
  mkError (httpStatus e) (code e) (key e) d (context e) (cause e).
Definition with_context (e : Error) (r : option nat) : Error :=
  mkError (httpStatus e) (code e) (key e) (detail e) r (cause e).
Definition with_cause (e : Error) (c : error_iface) : Error :=
  mkError (httpStatus e) (code e) (key e) (detail e) (context e) c.

(** ** The store: [Error] structs, map cells, and the identities handed
    out by [errors.New]. *)

Record state : Type := State {
  errs : gmap nat Error;
  next_err : nat;
  mh : mheap;
  next_id : nat
}.

Definition set_mh (st : state) (h : mheap) : state :=
  State (errs st) (next_err st) h (next_id st).

Definition set_err (st : state) (l : nat) (e : Error) : state :=
  State (<[l := e]> (errs st)) (next_err st) (mh st) (next_id st).

(** [&Error{...}] *)
Definition alloc_err (st : state) (e : Error) : state * nat :=
  (State (<[next_err st := e]> (errs st)) (S (next_err st)) (mh st) (next_id st),
   next_err st).

(** [errors.New(msg)] *)
Definition errors_New (st : state) (msg : string) : state * error_iface :=
  (State (errs st) (next_err st) (mh st) (S (next_id st)),
   ErrorString (next_id st) msg).

(** Reading a field through a [*Error]: a nil pointer panics. *)
Definition deref (st : state) (p : option nat) : result Error :=
  match p with
  | None => Panic
  | Some l => match errs st !! l with Some e => Ok e | None => Stuck end
  end.

(** The verb [%d] of [fmt.Sprintf] on an [int]. *)
Definition format_int (z : Z) : string := NilZero.string_of_int (Z.to_int z).

(** The part of the diagnostic string that does not depend on the cause. *)
Definition head_string (e : Error) : string :=
  code e ++ " [" ++ key e ++ "] (" ++ format_int (httpStatus e) ++ ")".

(** ** The method [Error] of [*Error] (error.go, lines 35-45)

    [%v] applied to the cause calls the cause's own [Error()] method; for
    a cause that is a [*Error] this is a recursive call, which uses fuel. *)
Fixpoint Error_str (fuel : nat) (st : state) (p : option nat) : result string :=
  match p with
  | None => Ok "<nil>"
  | Some l =>
    match errs st !! l with
    | None => Stuck
    | Some e =>
      match cause e with
      | NilError => Ok (head_string e)
      | PtrError q =>
        match fuel with
        | 0 => Stuck
        | S fuel' =>
          s ← Error_str fuel' st q; Ok (head_string e ++ ": " ++ s)
        end
      | ErrorString _ msg => Ok (head_string e ++ ": " ++ msg)
      | WrapError _ msg _ => Ok (head_string e ++ ": " ++ msg)
      end
    end
  end.

(** [err.Error()] on an interface value. *)
Definition error_message (fuel : nat) (st : state) (x : error_iface) : result string :=
  match x with
  | NilError => Panic
  | PtrError p => Error_str fuel st p
  | ErrorString _ msg => Ok msg
  | WrapError _ msg _ => Ok msg
  end.

(** ** Getters (error.go, lines 47-55) *)

Definition Unwrap (st : state) (p : option nat) : result error_iface :=
  e ← deref st p; Ok (cause e).

Definition HTTPStatus (st : state) (p : option nat) : result Z :=
  e ← deref st p; Ok (httpStatus e).

Definition Code (st : state) (p : option nat) : result string :=
  e ← deref st p; Ok (code e).

Definition Key (st : state) (p : option nat) : result string :=
  e ← deref st p; Ok (key e).

Definition Detail (st : state) (p : option nat) : result string :=
  e ← deref st p; Ok (detail e).

Definition Context (fuel : nat) (st : state) (p : option nat)
    : result (state * option nat) :=
  e ← deref st p;
  '(h, r) ← cloneMap fuel (mh st) (context e);
  Ok (set_mh st h, r).

(** ** [New] (error.go, lines 62-74); [causes] is the variadic argument. *)
Definition New (fuel : nat) (st : state) (status : Z) (c k d : string)
    (ctx : option nat) (causes : list error_iface) : result (state * option nat) :=
  '(h, r) ← cloneMap fuel (mh st) ctx;
  let e := mkError status c k d r NilError in
  let e := match causes with
           | c0 :: _ => mkError status c k d r c0
           | [] => e
           end in
  let '(st1, l) := alloc_err (set_mh st h) e in
  Ok (st1, Some l).

(** ** [WithContextKV] (error.go, lines 80-92) *)

(** [if e.context == nil { e.context = map[string]any{} }] *)
Definition ensure_context (st : state) (l : nat) (e : Error) : state * nat :=
  match context e with
  | Some a => (st, a)
  | None =>
    let '(h, a) := make_map (mh st) in
    (set_err (set_mh st h) l (with_context e (Some a)), a)
  end.

Definition WithContextKV (st : state) (p : option nat) (k : string) (v : any)
    : result (state * option nat) :=
  match p with
  | None => Ok (st, None)
  | Some l =>
    e ← deref st p;
    let '(st1, a) := ensure_context st l e in
    Ok (set_mh st1 (map_assign (mh st1) a k v), Some l)
  end.

(** ** [WithContextMap] (error.go, lines 96-110) *)

Definition entries (h : mheap) (m : option nat) : list (string * any) :=
  match m with
  | None => []
  | Some a => match cells h !! a with Some c => map_to_list c | None => [] end
  end.

Definition assign_all (h : mheap) (a : nat) (l : list (string * any)) : mheap :=
  fold_left (fun h' kv => map_assign h' a kv.1 kv.2) l h.

Definition WithContextMap (st : state) (p : option nat) (m : option nat)
    : result (state * option nat) :=
  match p with
  | None => Ok (st, None)
  | Some l =>
    if decide (len (mh st) m = 0) then Ok (st, p)
    else
      e ← deref st p;
      let l_in := entries (mh st) m in
      let '(st1, a) := ensure_context st l e in
      Ok (set_mh st1 (assign_all (mh st1) a l_in), Some l)
  end.

(** ** Options and [E] (options.go)

    An [Option] is a closure over one argument; the four constructors of
    the package are the four constructors here, and applying the closure
    is [apply_option].  The nil func, which is a value of the Go type
    [Option] as well, is added by [call_option] below. *)

Definition defaultHTTPStatus : Z := 500.

Inductive Option : Type :=
  | WithHTTPStatus (status : Z)
  | WithDetail (d : string)
  | WithContext (ctx : option nat)
  | WithCause (c : error_iface).

Definition apply_option (fuel : nat) (st : state) (p : option nat) (o : Option)
    : result state :=
  e ← deref st p;
  match p with
  | None => Panic
  | Some l =>
    match o with
    | WithHTTPStatus status => Ok (set_err st l (with_httpStatus e status))
    | WithDetail d => Ok (set_err st l (with_detail e d))
    | WithContext ctx =>
      '(h, r) ← cloneMap fuel (mh st) ctx;
      Ok (set_err (set_mh st h) l (with_context e r))
    | WithCause c => Ok (set_err st l (with_cause e c))
    end
  end.

(** [for _, o := range opts { o(e) }] *)
Fixpoint apply_options (fuel : nat) (st : state) (p : option nat) (opts : list Option)
    : result state :=
  match opts with
  | [] => Ok st
  | o :: opts' => st1 ← apply_option fuel st p o; apply_options fuel st1 p opts'
  end.

Definition E (fuel : nat) (st : state) (c k : string) (opts : list Option)
    : result (state * option nat) :=
  let '(st1, l) := alloc_err st (mkError defaultHTTPStatus c k "error" None NilError) in
  st2 ← apply_options fuel st1 (Some l) opts;
  Ok (st2, Some l).

(** A Go value of type [Option] is a func value and may be nil: in an
    argument list of [E], [Some o] is a closure built by one of the four
    constructors and [None] is the nil func, whose call [o(e)]
    (options.go, line 34) panics. *)
Definition call_option (fuel : nat) (st : state) (p : option nat) (o : option Option)
    : result state :=
  match o with
  | None => Panic
  | Some o => apply_option fuel st p o
  end.

Fixpoint call_options (fuel : nat) (st : state) (p : option nat)
    (opts : list (option Option)) : result state :=
  match opts with
  | [] => Ok st
  | o :: opts' => st1 ← call_option fuel st p o; call_options fuel st1 p opts'
  end.

(** [E] (options.go, lines 26-38) on an argument list that may hold nil
    options; on a list without nil it is [E] above. *)
Definition E_values (fuel : nat) (st : state) (c k : string) (opts : list (option Option))
    : result (state * option nat) :=
  let '(st1, l) := alloc_err st (mkError defaultHTTPStatus c k "error" None NilError) in
  st2 ← call_options fuel st1 (Some l) opts;
  Ok (st2, Some l).

(** ** [Wrap] and [Ensure] *)

(** [e.cause = cause] *)
Definition set_cause (st : state) (p : option nat) (c : error_iface) : result state :=
  e ← deref st p;
  match p with
  | None => Panic
  | Some l => Ok (set_err st l (with_cause e c))
  end.

Definition Wrap (fuel : nat) (st : state) (cause0 : error_iface) (status : Z)
    (c k d : string) (ctx : option nat) : result (state * option nat) :=
  let '(st0, cause1) :=
    match cause0 with
    | NilError => errors_New st "unknown"
    | _ => (st, cause0)
    end in
  '(st1, e) ← New fuel st0 status c k d ctx [];
  st2 ← set_cause st1 e cause1;
  Ok (st2, e).

(** [errors.As(err, &e)] with [e] of type [*Error], from Go's standard
    library, on the error kinds of the model: the first value of dynamic
    type [*Error] met while following [Unwrap] from [err]; [None] when the
    chain has none.  A [*Error] that is found is not unwrapped further. *)
Fixpoint errors_As (err : error_iface) : option (option nat) :=
  match err with
  | NilError => None
  | PtrError p => Some p
  | ErrorString _ _ => None
  | WrapError _ _ inner => errors_As inner
  end.

Definition Ensure (fuel : nat) (st : state) (err : error_iface)
    : result (state * option nat) :=
  match err with
  | NilError => Ok (st, None)
  | _ =>
    match errors_As err with
    | Some e => Ok (st, e)
    | None =>
      Wrap fuel st err defaultHTTPStatus "internal.error" "internal" "internal error" None
    end
  end.

(** [errors.Is(err, target)] from Go's standard library, on the error
    kinds of the model: follow [Unwrap] from [err] until a value equal to
    [target] is met or the chain ends. *)
Fixpoint errors_is (fuel : nat) (st : state) (err target : error_iface) : result bool :=
  if error_eqb err target then Ok true
  else
    match err with
    | PtrError p =>
      c ← Unwrap st p;
      match c with
      | NilError => Ok false
      | _ => match fuel with 0 => Stuck | S fuel' => errors_is fuel' st c target end
      end
    | WrapError _ _ inner =>
      match inner with
      | NilError => Ok false
      | _ => match fuel with 0 => Stuck | S fuel' => errors_is fuel' st inner target end
      end
    | _ => Ok false
    end.

Definition errors_Is (fuel : nat) (st : state) (err target : error_iface) : result bool :=
  match err, target with
  | NilError, _ => Ok (error_eqb err target)
  | _, NilError => Ok false
  | _, _ => errors_is fuel st err target
  end.

(** The cause stored in cell [l] only points to [Error] structs that were
    allocated before [l]: causes are fixed at construction time. *)
Fixpoint ptrs_below (st : state) (l : nat) (c : error_iface) : Prop :=
  match c with
  | PtrError (Some q) => q < l ∧ is_Some (errs st !! q)
  | WrapError _ _ inner => ptrs_below st l inner
  | _ => True
  end.

Definition causes_ok (st : state) : Prop :=
  ∀ l e, errs st !! l = Some e → ptrs_below st l (cause e).

(** Two stores in which every [Error] has the same code, key, status and
    cause; details, contexts and the map heap may differ. *)
Definition same_rendered (st st' : state) : Prop :=
  ∀ l, match errs st !! l, errs st' !! l with
       | Some e, Some e' =>
         code e = code e' ∧ key e = key e' ∧
         httpStatus e = httpStatus e' ∧ cause e = cause e'
       | None, None => True
       | _, _ => False
       end.

(** The store before anything was allocated. *)
Definition empty_state : state := State ∅ 0 (MHeap ∅ 0) 0.

(** The context argument is nil or a map of length zero. *)
Definition is_empty_map (h : mheap) (r : option nat) : Prop :=
  match r with
  | None => True
  | Some a => cells h !! a = Some ∅
  end.

(** The map under [r] exists in [h], nests at most [d] levels, and was
    allocated by the allocator of [h]. *)
Definition valid_map (d : nat) (h : mheap) (r : option nat) : Prop :=
  within (fun a => a < next h) d h r.

(** The chain of values visited by following [Unwrap] from [err], as far
    as it can be read without the store: it stops at the first [*Error]. *)
Fixpoint unwrap_chain (err : error_iface) : list error_iface :=
  match err with
  | NilError => []
  | WrapError _ _ inner => err :: unwrap_chain inner
  | _ => [err]
  end.

(** The first value of dynamic type [*Error] in a list of errors. *)
Fixpoint first_Error (l : list error_iface) : option (option nat) :=
  match l with
  | [] => None
  | PtrError p :: _ => Some p
  | _ :: l' => first_Error l'
  end.

(** What [Wrap] stores as the cause, and the next free identity. *)
Definition wrapped_cause (st : state) (cause0 : error_iface) : error_iface :=
  match cause0 with
  | NilError => ErrorString (next_id st) "unknown"
  | _ => cause0
  end.

Definition wrapped_next_id (st : state) (cause0 : error_iface) : nat :=
  match cause0 with
  | NilError => S (next_id st)
  | _ => next_id st
  end.

(** A store with one Error, "customer.not_found", and an error made by
    [fmt.Errorf("lookup: %w", e)] around it. *)
Definition not_found_Error : Error :=
  mkError 404 "customer.not_found" "not_found" "customer 42 not found" None NilError.

Definition not_found_state : state :=
  State {[0 := not_found_Error]} 1 (MHeap ∅ 0) 0.

Definition annotated_not_found : error_iface :=
  WrapError 0 "lookup: customer.not_found [not_found] (404)" (PtrError (Some 0)).

(** Between [st] and [st'] the Error at [l] changed at most in its
    context field, and no other Error changed at all. *)
Definition only_context_changed (st st' : state) (l : nat) : Prop :=
  (∃ e e', errs st !! l = Some e ∧ errs st' !! l = Some e' ∧
     httpStatus e' = httpStatus e ∧ code e' = code e ∧ key e' = key e ∧
     detail e' = detail e ∧ cause e' = cause e) ∧
  (∀ q, q ≠ l → errs st' !! q = errs st !! q).

(** The getters other than Context(), and Error(), give the same answers
    in [st'] as in [st]. *)
Definition same_answers (st st' : state) (l : nat) : Prop :=
  HTTPStatus st' (Some l) = HTTPStatus st (Some l) ∧
  Code st' (Some l) = Code st (Some l) ∧
  Key st' (Some l) = Key st (Some l) ∧
  Detail st' (Some l) = Detail st (Some l) ∧
  Unwrap st' (Some l) = Unwrap st (Some l) ∧
  (∀ fuel p, Error_str fuel st' p = Error_str fuel st p).

(** The attribute an option assigns. *)
Inductive attribute : Type := AStatus | ADetail | AContext | ACause.

#[global] Instance attribute_eq_dec : EqDecision attribute.
Proof. solve_decision. Defined.

Definition attr_of (o : Option) : attribute :=
  match o with
  | WithHTTPStatus _ => AStatus
  | WithDetail _ => ADetail
  | WithContext _ => AContext
  | WithCause _ => ACause
  end.

(** Attribute [a] has the same value in [e'] as in [e]. *)
Definition keeps (a : attribute) (e e' : Error) : Prop :=
  match a with
  | AStatus => httpStatus e' = httpStatus e
  | ADetail => detail e' = detail e
  | AContext => context e' = context e
  | ACause => cause e' = cause e
  end.

(** The mapping given to [WithContext] is a valid map of the heap [h]
    whose nesting depth the fuel covers. *)
Definition option_ok (fuel : nat) (h : mheap) (o : Option) : Prop :=
  match o with
  | WithContext ctx => valid_map fuel h ctx
  | _ => True
  end.

(** What applying [o] to the Error [e] in store [st] gives: the Error
    [e'] and the map heap [h']. *)
Definition option_effect (fuel : nat) (st : state) (o : Option) (e e' : Error)
    (h' : mheap) : Prop :=
  match o with
  | WithHTTPStatus status => e' = with_httpStatus e status ∧ h' = mh st
  | WithDetail d => e' = with_detail e d ∧ h' = mh st
  | WithContext ctx =>
    ∃ r, cloneMap fuel (mh st) ctx = Ok (h', r) ∧ e' = with_context e r
  | WithCause c => e' = with_cause e c ∧ h' = mh st
  end.

(** The Error built by [E] before any option is applied. *)
Definition default_Error (c k : string) : Error :=
  mkError defaultHTTPStatus c k "error" None NilError.

(** [st'] is a later store in which the Error at [l] and the map cells
    with addresses in [lo, hi) are as they are in [st]; every other cell
    may have been written, and new cells may have been allocated. *)
Definition untouched (lo hi l : nat) (st st' : state) : Prop :=
  errs st' !! l = errs st !! l ∧
  next (mh st) ≤ next (mh st') ∧
  preserves (fun a => lo ≤ a < hi) (mh st) (mh st').

(** A caller's map [M = {"a": {}}]: cell 0 is [M], cell 1 the empty map. *)
Definition nested_empty_state : state :=
  State ∅ 0 (MHeap (<[0 := {["a" := AMap (Some 1)]}]> (<[1 := ∅]> ∅)) 2) 0.

(** The scenario of the package's test of the context setters: an Error
    without context, then [WithContextKV("a", 1)], then [WithContextMap] of
    the caller's map [{"b": 2, "a": 3}] (cell 0), then [Context()]. *)
Definition setters_scenario : result (state * option nat) :=
  let st := set_mh empty_state (MHeap {[0 := {["b" := AInt 2; "a" := AInt 3]}]} 1) in
  '(st1, p) ← New 0 st 500 "x" "y" "z" None [];
  '(st2, p) ← WithContextKV st1 p "a" (AInt 1);
  '(st3, p) ← WithContextMap st2 p (Some 0);
  Context 1 st3 p.

(** The scenario of the package's test of nested wrapping. *)
Definition nested_wrap_scenario : result string :=
  '(st1, e1) ← Wrap 0 empty_state (ErrorString 7 "db not found") 404
                 "customer.not_found" "not_found" "customer not found" None;
  '(st2, e2) ← Wrap 0 st1 (PtrError e1) 500 "repository.failure" "internal"
                 "repository failure" None;
  Error_str 2 st2 e2.

(** A value that is not a [map[string]any]. *)
Definition is_scalar (v : any) : Prop :=
  match v with AMap _ => False | _ => True end.

(** The entries of the map under [r]; none for the nil map. *)
Definition content (h : mheap) (r : option nat) : gmap string any :=
  match r with
  | None => ∅
  | Some a => default ∅ (cells h !! a)
  end.

(** Cell [x] is the map under [r] or the cell of a map nested in it. *)
Inductive inside (h : mheap) (x : nat) : option nat → Prop :=
  | inside_here : inside h x (Some x)
  | inside_child a m k r :
      cells h !! a = Some m → m !! k = Some (AMap r) →
      inside h x r → inside h x (Some a).

(** How [Context()] relates an entry [v] of the stored map (heap [h]) to
    the entry [w] under the same key in the map it returns (heap [h']):
    a missing key is missing, a non-map value is the same value, a map
    value is a map of new cells that reads as the stored one. *)
Definition entry_cloned (h h' : mheap) (lo : nat) (v w : option any) : Prop :=
  match v with
  | None => w = None
  | Some (AMap r) =>
    ∃ c, w = Some (AMap c) ∧ clone_equal h r h' c ∧
         ∀ x, inside h' x c → lo ≤ x
  | Some u => w = Some u
  end.

(** [WithContextKV] called for each entry of a list, in order. *)
Fixpoint WithContextKV_all (st : state) (p : option nat) (l : list (string * any))
    : result (state * option nat) :=
  match l with
  | [] => Ok (st, p)
  | (k, v) :: l' =>
    '(st1, p1) ← WithContextKV st p k v; WithContextKV_all st1 p1 l'
  end.

(** Every stored context is an allocated map with at least one entry. *)
Definition contexts_nonempty (st : state) : Prop :=
  ∀ l e a, errs st !! l = Some e → context e = Some a →
    a < next (mh st) ∧ ∃ m, cells (mh st) !! a = Some m ∧ m ≠ ∅.

(** The cause given to [WithCause] only points to Errors older than [l]. *)
Definition cause_arg_ok (st : state) (l : nat) (o : Option) : Prop :=
  match o with
  | WithCause x => ptrs_below st l x
  | _ => True
  end.

(** What a call [cloneMap(r)] started in [h] guarantees about its result
    [(h', r')]: it only allocates, every cell of the result is new, and the
    result reads as [r] did, empty maps normalised to nil. *)
Definition clone_post (h : mheap) (r : option nat) (d : nat)
    (res : mheap * option nat) : Prop :=
  next h ≤ next res.1 ∧
  preserves (fun a => a < next h) h res.1 ∧
  within (fun a => next h ≤ a < next res.1) d res.1 res.2 ∧
  (∀ n, denote n res.1 res.2 = denote_norm n h r) ∧
  (res.2 = None ↔ len h r = 0).

(** * Properties of the map heap and of [cloneMap] *)

Section MapHeap.

Implicit Types (h : mheap) (r : option nat) (P Q : nat → Prop) (d n : nat).

Lemma within_nil P d h : within P d h None.
Proof. by destruct d. Qed.

Lemma denote_nil n h : denote n h None = TNil.
Proof. by destruct n. Qed.

Lemma denote_norm_nil n h : denote_norm n h None = TNil.
Proof. by destruct n. Qed.

Lemma cloneMap_nil fuel h : cloneMap fuel h None = Ok (h, None).
Proof. by destruct fuel. Qed.

Lemma cloneMap_empty fuel h a :
  cells h !! a = Some ∅ → cloneMap fuel h (Some a) = Ok (h, None).
Proof. intros Ha. destruct fuel; simpl; rewrite Ha; by case_decide. Qed.

Lemma within_mono P Q d h r :
  (∀ a, P a → Q a) → within P d h r → within Q d h r.
Proof.
  intros HPQ. revert r. induction d as [|d IH]; intros [a|]; simpl; try done.
  intros (Ha & m & Hm & Hsub). split; [by apply HPQ|].
  exists m. split; [done|]. intros k r' Hk. apply IH. by eapply Hsub.
Qed.

Lemma within_depth_mono P d (d' : nat) h r :
  d ≤ d' → within P d h r → within P d' h r.
Proof.
  revert d' r. induction d as [|d IH]; intros d' [a|] Hle;
    try (intros _; apply within_nil); simpl; try done.
  destruct d' as [|d']; [lia|].
  intros (Ha & m & Hm & Hsub). split; [done|].
  exists m. split; [done|]. intros k r' Hk. apply IH; [lia|]. by eapply Hsub.
Qed.

Lemma within_frame P d h h' r :
  preserves P h h' → within P d h r → within P d h' r.
Proof.
  intros Hpres. revert r. induction d as [|d IH]; intros [a|]; simpl; try done.
  intros (Ha & m & Hm & Hsub). split; [done|].
  exists m. split; [by rewrite Hpres|].
  intros k r' Hk. apply IH. by eapply Hsub.
Qed.

Lemma denote_frame P d n h h' r :
  preserves P h h' → within P d h r → denote n h' r = denote n h r.
Proof.
  intros Hpres. revert d r.
  induction n as [|n IH]; intros [|d] [a|]; simpl; try done.
  - intros (Ha & m & Hm & _). by rewrite Hpres, Hm.
  - intros (Ha & m & Hm & Hsub). rewrite Hpres, Hm by done.
    f_equal. apply map_fmap_ext. intros k [z|s|x|r'] Hk; try done.
    eapply IH, Hsub, Hk.
Qed.

Lemma denote_norm_frame P d n h h' r :
  preserves P h h' → within P d h r → denote_norm n h' r = denote_norm n h r.
Proof.
  intros Hpres. revert d r.
  induction n as [|n IH]; intros [|d] [a|]; simpl; try done.
  - intros (Ha & m & Hm & _). by rewrite Hpres, Hm.
  - intros (Ha & m & Hm & Hsub). rewrite Hpres, Hm by done.
    case_decide; [done|].
    f_equal. apply map_fmap_ext. intros k [z|s|x|r'] Hk; try done.
    eapply IH, Hsub, Hk.
Qed.

Lemma denote_norm_no_empty n h r :
  no_empty n h r → denote_norm n h r = denote n h r.
Proof.
  revert r. induction n as [|n IH]; intros [a|]; simpl; try done.
  - intros Hne. destruct (cells h !! a) as [m|]; [|done].
    destruct (Hne m eq_refl) as [Hm _]. by case_decide.
  - intros Hne. destruct (cells h !! a) as [m|]; [|done].
    destruct (Hne m eq_refl) as [Hm Hsub]. case_decide; [done|].
    f_equal. apply map_fmap_ext. intros k [z|s|x|r'] Hk; try done.
    eapply IH, Hsub, Hk.
Qed.

Lemma preserves_refl P h : preserves P h h.
Proof. by intros a _. Qed.

Lemma preserves_trans P h1 h2 h3 :
  preserves P h1 h2 → preserves P h2 h3 → preserves P h1 h3.
Proof. intros H12 H23 a Ha. rewrite H23, H12; done. Qed.

Lemma preserves_weaken P Q h h' :
  (∀ a, Q a → P a) → preserves P h h' → preserves Q h h'.
Proof. intros HQP Hp a Ha. apply Hp, HQP, Ha. Qed.

Lemma preserves_make_map h :
  preserves (fun a => a < next h) h (make_map h).1.
Proof. intros a Ha. simpl. rewrite lookup_insert_ne; [done|lia]. Qed.

Lemma preserves_map_assign h out k v :
  preserves (fun a => a ≠ out) h (map_assign h out k v).
Proof. intros a Ha. simpl. by rewrite lookup_alter_ne. Qed.

Lemma preserves_map_delete h out k :
  preserves (fun a => a ≠ out) h (map_delete h out k).
Proof. intros a Ha. simpl. by rewrite lookup_alter_ne. Qed.

Lemma elem_of_keys_map_to_list (m : gmap string any) k :
  k ∈ (map_to_list m).*1 ↔ is_Some (m !! k).
Proof.
  rewrite list_elem_of_fmap. split.
  - intros ([k' v] & -> & Hin). apply elem_of_map_to_list in Hin. by exists v.
  - intros [v Hv]. exists (k, v). split; [done|]. by apply elem_of_map_to_list.
Qed.

Lemma any_map_dec (v : any) : {mv | v = AMap mv} + {∀ mv, v ≠ AMap mv}.
Proof. destruct v as [z|s|x|mv]; [right|right|right|left]; try done. by exists mv. Defined.

(** The loop of [cloneMap], given that the nested calls behave. *)
Lemma clone_entries_spec d
    (IH : ∀ h r, within (fun a => a < next h) d h r →
            ∃ res, cloneMap d h r = Ok res ∧ clone_post h r d res) :
  ∀ (l : list (string * any)) out h (acc : gmap string any),
    NoDup l.*1 →
    out < next h →
    cells h !! out = Some acc →
    (∀ k r', (k, AMap r') ∈ l → within (fun a => a < out) d h r') →
    ∃ h' (acc' : gmap string any),
      clone_entries (cloneMap d) out h l = Ok h' ∧
      next h ≤ next h' ∧
      preserves (fun a => a < next h ∧ a ≠ out) h h' ∧
      cells h' !! out = Some acc' ∧
      (∀ k, k ∉ l.*1 → acc' !! k = acc !! k) ∧
      (∀ k v, (k, v) ∈ l → ∃ v', acc' !! k = Some v' ∧
         match v with
         | AMap r' => ∃ c, v' = AMap c ∧
             within (fun a => out < a < next h') d h' c ∧
             (∀ n, denote n h' c = denote_norm n h r')
         | _ => v' = v
         end).
Proof.
  induction l as [|[k v] l IHl]; intros out h acc Hnd Hout Hacc Hsrc.
  { exists h, acc. repeat split; try done.
    intros k v Hin. by apply elem_of_nil in Hin. }
  apply NoDup_cons in Hnd as [Hk Hnd]. simpl in Hk.
  assert (Hsrc' : ∀ h1, preserves (fun a => a < out) h h1 →
            ∀ k0 r', (k0, AMap r') ∈ l → within (fun a => a < out) d h1 r').
  { intros h1 Hp k0 r' Hin. eapply within_frame; [done|].
    apply (Hsrc k0). by right. }
  assert (Hnorm : ∀ h1 n k0 r', preserves (fun a => a < out) h h1 →
            (k0, AMap r') ∈ (k, v) :: l →
            denote_norm n h1 r' = denote_norm n h r').
  { intros h1 n k0 r' Hp Hin. eapply denote_norm_frame; [done|]. by eapply Hsrc. }
  assert (Hplain : ∀ v, let h1 := map_assign h out k v in
            out < next h1 ∧ cells h1 !! out = Some (<[k := v]> acc) ∧
            preserves (fun a => a < out) h h1).
  { intros v0. simpl. split; [done|]. split.
    - by rewrite lookup_alter_eq, Hacc.
    - eapply preserves_weaken; [|apply preserves_map_assign]. simpl. lia. }
  destruct (any_map_dec v) as [[mv ->]|Hnm].
  - (* a nested map: clone it, then store the clone *)
    destruct (IH h mv) as ([h1 c] & Hclone & Hle1 & Hp1 & Hw1 & Hd1 & _).
    { eapply within_mono; [|apply (Hsrc k); by left]. simpl. lia. }
    simpl in Hle1, Hp1, Hw1, Hd1.
    set (h2 := map_assign h1 out k (AMap c)).
    assert (Hacc2 : cells h2 !! out = Some (<[k := AMap c]> acc)).
    { simpl. rewrite lookup_alter_eq, Hp1, Hacc by done. done. }
    assert (Hp02 : preserves (fun a => a < out) h h2).
    { eapply preserves_trans.
      - eapply preserves_weaken; [|exact Hp1]. simpl. lia.
      - eapply preserves_weaken; [|apply preserves_map_assign]. simpl. lia. }
    destruct (IHl out h2 (<[k := AMap c]> acc)) as
      (h' & acc' & Hrun & Hle' & Hp' & Hacc' & Hold & Hnew); try done.
    { simpl. lia. }
    { by apply Hsrc'. }
    simpl in Hle'.
    assert (Hp1' : preserves (fun a => a < next h1 ∧ a ≠ out) h1 h').
    { eapply preserves_trans; [|exact Hp'].
      eapply preserves_weaken; [|apply preserves_map_assign]. simpl. tauto. }
    exists h', acc'. split; [simpl; rewrite Hclone; exact Hrun|].
    split; [lia|]. split; [|split; [done|split]].
    + eapply preserves_trans.
      * eapply preserves_weaken; [|exact Hp1]. simpl. tauto.
      * eapply preserves_weaken; [|exact Hp1']. simpl. lia.
    + intros k0 Hk0. simpl in Hk0. apply not_elem_of_cons in Hk0 as [Hne Hk0].
      rewrite Hold by done. by rewrite lookup_insert_ne.
    + intros k0 v0 Hin. apply elem_of_cons in Hin as [[= -> ->]|Hin].
      * exists (AMap c). split; [rewrite Hold by done; apply lookup_insert_eq|].
        exists c. split; [done|]. split.
        -- eapply within_mono; [|eapply within_frame; [|exact Hw1]].
           ++ simpl. lia.
           ++ eapply preserves_weaken; [|exact Hp1']. simpl. lia.
        -- intros n. rewrite <- Hd1. eapply denote_frame; [|exact Hw1].
           eapply preserves_weaken; [|exact Hp1']. simpl. lia.
      * destruct (Hnew k0 v0 Hin) as (v' & Hv' & Hrel). exists v'. split; [done|].
        destruct v0 as [z|s|x|r']; try done.
        destruct Hrel as (c0 & -> & Hw & Hd). exists c0. repeat split; try done.
        intros n. rewrite Hd. eapply Hnorm; [done|]. by right.
  - (* any other value is stored as it is *)
    destruct (Hplain v) as (Hout2 & Hacc2 & Hp02).
    destruct (IHl out (map_assign h out k v) (<[k := v]> acc)) as
      (h' & acc' & Hrun & Hle' & Hp' & Hacc' & Hold & Hnew); try done.
    { by apply Hsrc'. }
    simpl in Hle'.
    exists h', acc'. split.
    { destruct v as [z|s|x|mv]; try exact Hrun. by destruct (Hnm mv). }
    split; [done|]. split; [|split; [done|split]].
    + eapply preserves_trans; [|exact Hp'].
      eapply preserves_weaken; [|apply preserves_map_assign]. simpl. tauto.
    + intros k0 Hk0. simpl in Hk0. apply not_elem_of_cons in Hk0 as [Hne Hk0].
      rewrite Hold by done. by rewrite lookup_insert_ne.
    + intros k0 v0 Hin. apply elem_of_cons in Hin as [[= -> ->]|Hin].
      * exists v. split; [rewrite Hold by done; apply lookup_insert_eq|].
        destruct v as [z|s|x|mv]; try done. by destruct (Hnm mv).
      * destruct (Hnew k0 v0 Hin) as (v' & Hv' & Hrel). exists v'. split; [done|].
        destruct v0 as [z|s|x|r']; try done.
        destruct Hrel as (c0 & -> & Hw & Hd). exists c0. repeat split; try done.
        intros n. rewrite Hd. eapply Hnorm; [done|]. by right.
Qed.

(** [cloneMap] returns whenever its fuel covers the nesting depth of its
    argument, and its result satisfies [clone_post]. *)
Lemma cloneMap_spec d h r :
  within (fun a => a < next h) d h r →
  ∃ res, cloneMap d h r = Ok res ∧ clone_post h r d res.
Proof.
  revert h r. induction d as [|d IHd]; intros h [a|] Hw;
    try (exists (h, None); rewrite cloneMap_nil; split; [done|];
         repeat split; simpl; try done; try apply preserves_refl;
         try apply within_nil; intros n; by rewrite denote_nil, denote_norm_nil).
  { done. }
  destruct Hw as (Ha & m & Hm & Hsub).
  destruct (decide (m = ∅)) as [->|Hne].
  { exists (h, None). rewrite (cloneMap_empty _ _ _ Hm). split; [done|].
    repeat split; simpl; try done; try apply preserves_refl.
    - intros n. rewrite denote_nil. destruct n; simpl; rewrite Hm; by case_decide.
    - intros _. by rewrite Hm, map_size_empty. }
  set (out := next h). set (h1 := (make_map h).1).
  destruct (clone_entries_spec d IHd (map_to_list m) out h1 ∅) as
    (h' & acc' & Hrun & Hle & Hp & Hacc & Hold & Hnew).
  { apply NoDup_fst_map_to_list. }
  { simpl. unfold out. lia. }
  { simpl. apply lookup_insert_eq. }
  { intros k r' Hin. apply elem_of_map_to_list in Hin.
    eapply within_frame; [apply preserves_make_map|]. by eapply Hsub. }
  simpl in Hle, Hp.
  exists (h', Some out). split.
  { simpl. rewrite Hm. case_decide; [done|]. fold out h1.
    change (MHeap (<[out:=∅]> (cells h)) (S out)) with h1. by rewrite Hrun. }
  assert (Hkeys : ∀ k v', acc' !! k = Some v' → ∃ v, m !! k = Some v ∧
            match v with
            | AMap r' => ∃ c, v' = AMap c ∧
                within (fun a => out < a < next h') d h' c ∧
                (∀ n, denote n h' c = denote_norm n h1 r')
            | _ => v' = v
            end).
  { intros k v' Hk. destruct (m !! k) as [v|] eqn:Hmk.
    - exists v. split; [done|].
      destruct (Hnew k v) as (v'' & Hv'' & Hrel); [by apply elem_of_map_to_list|].
      rewrite Hk in Hv''. by injection Hv'' as <-.
    - rewrite Hold in Hk; [by rewrite lookup_empty in Hk|].
      rewrite elem_of_keys_map_to_list, Hmk. by intros [? ?]. }
  repeat split; simpl.
  - unfold out in *. lia.
  - eapply preserves_trans; [apply preserves_make_map|].
    eapply preserves_weaken; [|exact Hp]. simpl. unfold out. lia.
  - fold out. lia.
  - fold out. lia.
  - exists acc'. split; [done|]. intros k r' Hk.
    destruct (Hkeys k _ Hk) as (v & Hv & Hrel).
    destruct v as [z|s|x|r0]; try done.
    destruct Hrel as (c & [= <-] & Hw & _).
    eapply within_mono; [|exact Hw]. simpl. unfold out. lia.
  - intros n. destruct n as [|n]; simpl; rewrite Hacc, Hm; case_decide; try done.
    f_equal. apply map_eq. intros k. rewrite !lookup_fmap.
    destruct (m !! k) as [v|] eqn:Hmk; simpl.
    + destruct (Hnew k v) as (v' & Hv' & Hrel); [by apply elem_of_map_to_list|].
      rewrite Hv'. simpl. f_equal.
      destruct v as [z|s|x|r0]; try by subst v'.
      destruct Hrel as (c & -> & _ & Hd). rewrite Hd.
      eapply denote_norm_frame; [apply preserves_make_map|]. by eapply Hsub.
    + rewrite Hold; [by rewrite lookup_empty|].
      rewrite elem_of_keys_map_to_list, Hmk. by intros [? ?].
  - done.
  - intros Hlen. rewrite Hm in Hlen. by apply map_size_empty_iff in Hlen.
Qed.

Lemma denote_cell n h a m :
  cells h !! a = Some m →
  denote (S n) h (Some a) = TMap (denote_any n h <$> m).
Proof. intros Ha. simpl. by rewrite Ha. Qed.

Lemma denote_norm_cell n h a m :
  cells h !! a = Some m → m ≠ ∅ →
  denote_norm (S n) h (Some a) = TMap (denote_norm_any n h <$> m).
Proof. intros Ha Hm. simpl. rewrite Ha. by case_decide. Qed.

Lemma within_Some P d h a : within P d h (Some a) → P a.
Proof. destruct d; simpl; [done|]. by intros [Ha _]. Qed.

Lemma denote_not_val n h r v : denote n h r ≠ TVal v.
Proof. destruct n, r as [a|]; simpl; try done; by destruct (cells h !! a). Qed.

Lemma denote_norm_TMap_nonempty n h r (x : gmap string tree) :
  denote_norm n h r = TMap x → x ≠ ∅.
Proof.
  destruct n, r as [a|]; simpl; try done;
    destruct (cells h !! a) as [m|]; try done; case_decide; try done.
  intros [= <-] Hx. by apply fmap_empty_inv in Hx.
Qed.

(** A map that reads as the normalised form of another one holds no map
    of length zero: normalising it again changes nothing. *)
Lemma clone_image_normal h h' n :
  ∀ r r', (∀ j, denote j h' r' = denote_norm j h r) →
    denote_norm n h' r' = denote n h' r'.
Proof.
  assert (Hne : ∀ r b, (∀ j, denote j h' (Some b) = denote_norm j h r) →
            cells h' !! b ≠ Some ∅).
  { intros r b H Hb. specialize (H 1). rewrite (denote_cell _ _ _ _ Hb), fmap_empty in H.
    symmetry in H. by apply denote_norm_TMap_nonempty in H. }
  induction n as [|n IH]; intros r [b|] H; try done.
  - simpl. destruct (cells h' !! b) as [mb|] eqn:Hb; [|done].
    case_decide; [|done]. subst mb. by destruct (Hne r b H).
  - simpl. destruct (cells h' !! b) as [mb|] eqn:Hb; [|done].
    case_decide; [subst mb; by destruct (Hne r b H)|].
    f_equal. apply map_fmap_ext. intros k [z|s|x|c] Hk; try done.
    assert (Hsrc : ∃ a m, r = Some a ∧ cells h !! a = Some m ∧ m ≠ ∅).
    { specialize (H 1). rewrite (denote_cell _ _ _ _ Hb) in H.
      destruct r as [a|]; [|discriminate H]. simpl in H.
      destruct (cells h !! a) as [m|] eqn:Ha; [|discriminate H].
      case_decide; [discriminate H|]. by exists a, m. }
    destruct Hsrc as (a & m & -> & Ha & Hm).
    assert (Hkey : ∀ j, Some (denote j h' c) = denote_norm_any j h <$> m !! k).
    { intros j. specialize (H (S j)).
      rewrite (denote_cell _ _ _ _ Hb), (denote_norm_cell _ _ _ _ Ha Hm) in H.
      injection H as H. apply (f_equal (fun x => x !! k)) in H.
      by rewrite !lookup_fmap, Hk in H. }
    destruct (m !! k) as [v0|] eqn:Hmk; [|by specialize (Hkey 0)].
    assert (Hv0 : ∀ j, denote j h' c = denote_norm_any j h v0).
    { intros j. specialize (Hkey j).
      change (Some (denote j h' c) = Some (denote_norm_any j h v0)) in Hkey.
      by injection Hkey. }
    destruct v0 as [z|s|x|r1]; try by destruct (denote_not_val 0 h' c _ (Hv0 0)).
    by apply (IH r1).
Qed.

End MapHeap.

(** * Properties of the error value *)

Section ErrorValue.

Implicit Types (st : state) (p : option nat) (e : Error) (fuel d n l : nat).

Lemma same_rendered_refl st : same_rendered st st.
Proof. intros l. by destruct (errs st !! l). Qed.

Lemma Error_str_nil fuel st : Error_str fuel st None = Ok "<nil>".
Proof. by destruct fuel. Qed.

Lemma Error_str_same_rendered fuel st st' p :
  same_rendered st st' → Error_str fuel st' p = Error_str fuel st p.
Proof.
  intros Hsame. revert p. induction fuel as [|fuel IH]; intros [l|]; try done.
  - simpl. specialize (Hsame l).
    destruct (errs st !! l) as [e|], (errs st' !! l) as [e'|]; try done.
    destruct Hsame as (Hc & Hk & Hs & Hca). unfold head_string.
    rewrite <- Hc, <- Hk, <- Hs, <- Hca. done.
  - simpl. specialize (Hsame l).
    destruct (errs st !! l) as [e|], (errs st' !! l) as [e'|]; try done.
    destruct Hsame as (Hc & Hk & Hs & Hca). unfold head_string.
    rewrite <- Hc, <- Hk, <- Hs, <- Hca.
    destruct (cause e) as [|q| |]; try done. by rewrite IH.
Qed.

(** [Error()] returns as soon as the fuel exceeds the receiver's address. *)
Lemma Error_str_total st :
  causes_ok st →
  ∀ fuel l, l < fuel → is_Some (errs st !! l) →
    ∃ s, Error_str fuel st (Some l) = Ok s.
Proof.
  intros Hok. induction fuel as [|fuel IH]; intros l Hlt [e He]; [lia|].
  simpl. rewrite He. pose proof (Hok l e He) as Hc.
  destruct (cause e) as [|[q|]|i msg|i msg inner]; simpl in *; try by eexists.
  - destruct Hc as [Hq Hsome]. destruct (IH q) as [s Hs]; [lia|done|].
    rewrite Hs. by eexists.
  - rewrite Error_str_nil. by eexists.
Qed.

(** More fuel does not change what [Error()] returns. *)
Lemma Error_str_fuel_mono f f' st p s :
  Error_str f st p = Ok s → f ≤ f' → Error_str f' st p = Ok s.
Proof.
  revert f' p s. induction f as [|f IH]; intros f' [l|] s Hs Hle;
    try (rewrite Error_str_nil in *; done).
  - simpl in Hs. destruct f'; simpl; destruct (errs st !! l) as [e|]; try done;
      by destruct (cause e).
  - destruct f' as [|f']; [lia|]. simpl in *.
    destruct (errs st !! l) as [e|]; try done.
    destruct (cause e) as [|q| |]; try done.
    destruct (Error_str f st q) as [s0| |] eqn:Hq; try done.
    rewrite (IH f' q s0); [done..|lia].
Qed.

Lemma set_mh_id st : set_mh st (mh st) = st.
Proof. by destruct st. Qed.

(** [Error()] on an Error that is its own cause calls itself without
    end: no amount of fuel gives a string. *)
Lemma Error_str_self_cause st l e :
  errs st !! l = Some e → cause e = PtrError (Some l) →
  ∀ f, Error_str f st (Some l) = Stuck.
Proof.
  intros He Hc. induction f as [|f IH]; simpl; rewrite He, Hc; [done|].
  by rewrite IH.
Qed.

End ErrorValue.

(** * Properties of the constructors and helpers *)

Section Helpers.

Implicit Types (st : state) (p : option nat) (e : Error) (fuel d n l : nat).

Lemma Context_spec fuel d st l e :
  errs st !! l = Some e →
  valid_map d (mh st) (context e) → d ≤ fuel →
  ∃ h r, Context fuel st (Some l) = Ok (set_mh st h, r) ∧
         clone_post (mh st) (context e) fuel (h, r).
Proof.
  intros He Hv Hle.
  destruct (cloneMap_spec fuel (mh st) (context e)) as ([h r] & Hc & Hpost).
  { eapply within_depth_mono; [exact Hle|exact Hv]. }
  exists h, r. split; [|done]. unfold Context, deref. rewrite He. simpl.
  by rewrite Hc.
Qed.

Lemma New_spec fuel d st status c k dt ctx causes :
  valid_map d (mh st) ctx → d ≤ fuel →
  ∃ h r, clone_post (mh st) ctx fuel (h, r) ∧
    New fuel st status c k dt ctx causes =
      Ok (State (<[next_err st := mkError status c k dt r (hd NilError causes)]> (errs st))
                (S (next_err st)) h (next_id st),
          Some (next_err st)).
Proof.
  intros Hv Hle.
  destruct (cloneMap_spec fuel (mh st) ctx) as ([h r] & Hc & Hpost).
  { eapply within_depth_mono; [exact Hle|exact Hv]. }
  exists h, r. split; [done|]. unfold New. rewrite Hc. simpl.
  by destruct causes.
Qed.

Lemma Wrap_spec fuel d st cause0 status c k dt ctx :
  valid_map d (mh st) ctx → d ≤ fuel →
  ∃ h r, clone_post (mh st) ctx fuel (h, r) ∧
    Wrap fuel st cause0 status c k dt ctx =
      Ok (State (<[next_err st := mkError status c k dt r (wrapped_cause st cause0)]> (errs st))
                (S (next_err st)) h (wrapped_next_id st cause0),
          Some (next_err st)).
Proof.
  intros Hv Hle.
  set (st0 := match cause0 with NilError => (errors_New st "unknown").1 | _ => st end).
  assert (Hst0 : mh st0 = mh st ∧ errs st0 = errs st ∧ next_err st0 = next_err st ∧
                 next_id st0 = wrapped_next_id st cause0).
  { unfold st0. by destruct cause0. }
  destruct Hst0 as (Hmh & Herrs & Hnext & Hid).
  destruct (New_spec fuel d st0 status c k dt ctx []) as (h & r & Hpost & HNew).
  { by rewrite Hmh. }
  { done. }
  rewrite Hmh in Hpost. exists h, r. split; [done|].
  assert (HW : Wrap fuel st cause0 status c k dt ctx =
    ('(st1, e) ← New fuel st0 status c k dt ctx [];
     st2 ← set_cause st1 e (wrapped_cause st cause0); Ok (st2, e))).
  { unfold Wrap, st0. by destruct cause0. }
  rewrite HW, HNew. simpl. unfold set_cause, deref. simpl.
  rewrite lookup_insert_eq. simpl. unfold set_err. simpl.
  rewrite insert_insert_eq. by rewrite Herrs, Hnext, Hid.
Qed.

Lemma Wrap_nil_context fuel st cause0 status c k dt :
  Wrap fuel st cause0 status c k dt None =
    Ok (State (<[next_err st := mkError status c k dt None (wrapped_cause st cause0)]> (errs st))
              (S (next_err st)) (mh st) (wrapped_next_id st cause0),
        Some (next_err st)).
Proof.
  unfold Wrap, New.
  destruct cause0; simpl; rewrite cloneMap_nil; simpl;
    unfold set_cause, deref; simpl; rewrite lookup_insert_eq; simpl;
    unfold set_err; simpl; by rewrite insert_insert_eq.
Qed.

(** [causes_ok] is an invariant of the constructors: a new Error whose
    cause only points to Errors that exist keeps it. *)
Lemma ptrs_below_mono st st' l c :
  (∀ q, is_Some (errs st !! q) → is_Some (errs st' !! q)) →
  ptrs_below st l c → ptrs_below st' l c.
Proof.
  intros Hsub. induction c as [|[q|]|i msg|i msg inner IH]; simpl; try done.
  intros [Hq Hsome]. split; [done|by apply Hsub].
Qed.

Lemma causes_ok_insert st st' l e :
  causes_ok st → ptrs_below st l (cause e) →
  errs st' = <[l := e]> (errs st) → causes_ok st'.
Proof.
  intros Hok He Hst' l' e' Hl'.
  assert (Hsub : ∀ q, is_Some (errs st !! q) → is_Some (errs st' !! q)).
  { intros q Hq. rewrite Hst'. destruct (decide (l = q)) as [->|Hne].
    - rewrite lookup_insert_eq. by eexists.
    - by rewrite lookup_insert_ne. }
  rewrite Hst' in Hl'. destruct (decide (l = l')) as [->|Hne].
  - rewrite lookup_insert_eq in Hl'. injection Hl' as <-.
    by eapply ptrs_below_mono.
  - rewrite lookup_insert_ne in Hl' by done.
    eapply ptrs_below_mono; [exact Hsub|]. by apply Hok.
Qed.

Lemma Wrap_causes_ok fuel st cause0 status c k dt ctx st' p :
  causes_ok st → ptrs_below st (next_err st) cause0 →
  valid_map fuel (mh st) ctx →
  Wrap fuel st cause0 status c k dt ctx = Ok (st', p) → causes_ok st'.
Proof.
  intros Hok Hc Hv HW.
  destruct (Wrap_spec fuel fuel st cause0 status c k dt ctx) as (h & r & _ & HW');
    [done..|].
  rewrite HW' in HW. injection HW as <- <-.
  eapply causes_ok_insert; [exact Hok| |reflexivity].
  simpl. by destruct cause0.
Qed.

Lemma wrapped_cause_not_nil st cause0 : wrapped_cause st cause0 ≠ NilError.
Proof. by destruct cause0. Qed.

Lemma error_eqb_refl x : error_eqb x x = true.
Proof. destruct x; simpl; try done; by apply bool_decide_eq_true. Qed.

(** One step of [errors.Is] through a [*Error] whose cause is not nil. *)
Lemma errors_is_step fuel st l e target :
  errs st !! l = Some e → cause e ≠ NilError →
  error_eqb (PtrError (Some l)) target = false →
  errors_is (S fuel) st (PtrError (Some l)) target = errors_is fuel st (cause e) target.
Proof.
  intros He Hc Hne. simpl. simpl in Hne. rewrite Hne.
  unfold Unwrap, deref. rewrite He. simpl. by destruct (cause e).
Qed.

Lemma errors_is_here fuel st x : errors_is fuel st x x = Ok true.
Proof. destruct fuel; simpl; by rewrite error_eqb_refl. Qed.

Lemma errors_Is_not_nil fuel st x target :
  target ≠ NilError →
  errors_Is fuel st (PtrError x) target = errors_is fuel st (PtrError x) target.
Proof. intros Hne. unfold errors_Is. by destruct target. Qed.

(** [errors.Is] finds the cause of a [*Error], whatever else is equal. *)
Lemma errors_is_cause fuel st l e :
  errs st !! l = Some e → cause e ≠ NilError →
  errors_is (S fuel) st (PtrError (Some l)) (cause e) = Ok true.
Proof.
  intros He Hc.
  destruct (error_eqb (PtrError (Some l)) (cause e)) eqn:Heq.
  - simpl. simpl in Heq. by rewrite Heq.
  - rewrite (errors_is_step _ _ _ e); try done. apply errors_is_here.
Qed.

Lemma errors_As_first_Error err : errors_As err = first_Error (unwrap_chain err).
Proof. induction err as [|q|i msg|i msg inner IH]; simpl; done. Qed.

Lemma only_context_changed_same_answers st st' l :
  only_context_changed st st' l → same_answers st st' l.
Proof.
  intros [(e & e' & He & He' & Hs & Hc & Hk & Hd & Hca) Hother].
  unfold same_answers, HTTPStatus, Code, Key, Detail, Unwrap, deref.
  rewrite He, He'. simpl. rewrite Hs, Hc, Hk, Hd, Hca. repeat split.
  intros fuel p. apply Error_str_same_rendered. intros q.
  destruct (decide (q = l)) as [->|Hq].
  - by rewrite He, He'.
  - rewrite (Hother q Hq). by destruct (errs st !! q).
Qed.

Lemma ensure_context_frame st l e :
  errs st !! l = Some e →
  only_context_changed st (ensure_context st l e).1 l.
Proof.
  intros He. unfold ensure_context. destruct (context e) as [a|]; simpl.
  - split; [by exists e, e|done].
  - split.
    + eexists e, _. split; [done|]. split; [apply lookup_insert_eq|done].
    + intros q Hq. unfold set_err. simpl. by rewrite lookup_insert_ne.
Qed.

Lemma apply_option_inv fuel st l o st' :
  apply_option fuel st (Some l) o = Ok st' →
  ∃ e e', errs st !! l = Some e ∧ option_effect fuel st o e e' (mh st') ∧
    st' = State (<[l := e']> (errs st)) (next_err st) (mh st') (next_id st).
Proof.
  unfold apply_option, deref. destruct (errs st !! l) as [e|] eqn:He; [|done].
  simpl. destruct o as [status|dt|ctx|x]; simpl.
  - intros [= <-]. by exists e, (with_httpStatus e status).
  - intros [= <-]. by exists e, (with_detail e dt).
  - destruct (cloneMap fuel (mh st) ctx) as [[h r]| |] eqn:Hc; simpl; try done.
    intros [= <-]. exists e, (with_context e r). split; [done|]. split; [|done].
    by exists r.
  - intros [= <-]. by exists e, (with_cause e x).
Qed.

Lemma option_effect_keeps fuel st o e e' h' a :
  option_effect fuel st o e e' h' → a ≠ attr_of o →
  keeps a e e' ∧ code e' = code e ∧ key e' = key e.
Proof.
  destruct o as [status|dt|ctx|x]; simpl.
  - intros [-> _] Ha. by destruct a.
  - intros [-> _] Ha. by destruct a.
  - intros (r & _ & ->) Ha. by destruct a.
  - intros [-> _] Ha. by destruct a.
Qed.

Lemma option_effect_names fuel st o e e' h' :
  option_effect fuel st o e e' h' → code e' = code e ∧ key e' = key e.
Proof.
  destruct o as [status|dt|ctx|x]; simpl; try by intros [-> _].
  by intros (r & _ & ->).
Qed.

Lemma option_effect_heap fuel st o e e' h' :
  option_effect fuel st o e e' h' → attr_of o ≠ AContext → h' = mh st.
Proof. destruct o as [status|dt|ctx|x]; simpl; try by intros [_ ->]. done. Qed.

Lemma apply_options_app fuel st p opts1 opts2 :
  apply_options fuel st p (opts1 ++ opts2) =
    (st1 ← apply_options fuel st p opts1; apply_options fuel st1 p opts2).
Proof.
  revert st. induction opts1 as [|o opts1 IH]; intros st; simpl; [done|].
  destruct (apply_option fuel st p o) as [st1| |]; simpl; [apply IH|done..].
Qed.

(** Options that do not assign attribute [a] leave it as it was. *)
Lemma apply_options_keeps fuel a l opts :
  ∀ st e st',
    apply_options fuel st (Some l) opts = Ok st' →
    errs st !! l = Some e →
    Forall (fun o => attr_of o ≠ a) opts →
    ∃ e', errs st' !! l = Some e' ∧ keeps a e e' ∧
          code e' = code e ∧ key e' = key e ∧
          (a = AContext → mh st' = mh st).
Proof.
  induction opts as [|o opts IH]; intros st e st' Hrun He Hall; simpl in Hrun.
  { injection Hrun as <-. exists e. repeat split; try done. by destruct a. }
  apply Forall_cons in Hall as [Ho Hall].
  destruct (apply_option fuel st (Some l) o) as [st1| |] eqn:Hap; try done.
  simpl in Hrun.
  destruct (apply_option_inv _ _ _ _ _ Hap) as (e0 & e1 & He0 & Heff & Hst1).
  rewrite He in He0. injection He0 as <-.
  destruct (option_effect_keeps _ _ _ _ _ _ a Heff) as (Hk1 & Hc1 & Hkey1); [done|].
  destruct (IH st1 e1 st' Hrun) as (e' & He' & Hk & Hc & Hkey & Hmh); [|done|].
  { rewrite Hst1. simpl. apply lookup_insert_eq. }
  exists e'. split; [done|]. split; [|split; [congruence|split; [congruence|]]].
  - destruct a; simpl in *; congruence.
  - intros ->. rewrite Hmh by done.
    eapply option_effect_heap; [exact Heff|done].
Qed.

Lemma option_ok_frame fuel h h' o :
  next h ≤ next h' → preserves (fun a => a < next h) h h' →
  option_ok fuel h o → option_ok fuel h' o.
Proof.
  intros Hle Hp. destruct o as [status|dt|ctx|x]; simpl; try done.
  unfold valid_map. intros Hw.
  eapply within_mono; [|eapply within_frame; [exact Hp|exact Hw]]. simpl. lia.
Qed.

Lemma apply_options_total fuel l opts :
  ∀ st, is_Some (errs st !! l) →
    Forall (option_ok fuel (mh st)) opts →
    ∃ st', apply_options fuel st (Some l) opts = Ok st'.
Proof.
  induction opts as [|o opts IH]; intros st [e He] Hall; simpl; [by eexists|].
  apply Forall_cons in Hall as [Ho Hall].
  assert (Hstep : ∃ st1, apply_option fuel st (Some l) o = Ok st1 ∧
            is_Some (errs st1 !! l) ∧ next (mh st) ≤ next (mh st1) ∧
            preserves (fun a => a < next (mh st)) (mh st) (mh st1)).
  { unfold apply_option, deref. rewrite He. simpl.
    destruct o as [status|dt|ctx|x]; simpl;
      try (eexists; split; [done|]; simpl; rewrite lookup_insert_eq;
           repeat split; eauto using preserves_refl).
    destruct (cloneMap_spec fuel (mh st) ctx Ho) as ([h r] & Hc & Hle & Hp & _).
    rewrite Hc. simpl. eexists. split; [done|]. simpl. rewrite lookup_insert_eq.
    repeat split; eauto. }
  destruct Hstep as (st1 & Hap & Hsome & Hle & Hp). rewrite Hap. simpl.
  apply IH; [done|]. eapply Forall_impl; [exact Hall|].
  intros o'. by apply option_ok_frame.
Qed.

(** Applying options only allocates map cells. *)
Lemma apply_options_frame fuel l opts :
  ∀ st st', apply_options fuel st (Some l) opts = Ok st' →
    Forall (option_ok fuel (mh st)) opts →
    next (mh st) ≤ next (mh st') ∧
    preserves (fun a => a < next (mh st)) (mh st) (mh st').
Proof.
  induction opts as [|o opts IH]; intros st st' Hrun Hall; simpl in Hrun.
  { injection Hrun as <-. split; [done|apply preserves_refl]. }
  apply Forall_cons in Hall as [Ho Hall].
  destruct (apply_option fuel st (Some l) o) as [st1| |] eqn:Hap; try done.
  simpl in Hrun.
  destruct (apply_option_inv _ _ _ _ _ Hap) as (e0 & e1 & _ & Heff & _).
  assert (Hstep : next (mh st) ≤ next (mh st1) ∧
            preserves (fun a => a < next (mh st)) (mh st) (mh st1)).
  { destruct o as [status|dt|ctx|x]; simpl in Heff;
      try (destruct Heff as [_ ->]; split; [done|apply preserves_refl]).
    destruct Heff as (r & Hc & _).
    destruct (cloneMap_spec fuel (mh st) ctx Ho) as (res & Hc' & Hle & Hp & _).
    rewrite Hc in Hc'. injection Hc' as <-. by split. }
  destruct Hstep as [Hle Hp].
  destruct (IH st1 st' Hrun) as [Hle' Hp'].
  { eapply Forall_impl; [exact Hall|]. intros o'. by apply option_ok_frame. }
  split; [lia|]. eapply preserves_trans; [exact Hp|].
  eapply preserves_weaken; [|exact Hp']. simpl. lia.
Qed.

Lemma call_options_Some fuel st p opts :
  call_options fuel st p (map Some opts) = apply_options fuel st p opts.
Proof.
  revert st. induction opts as [|o opts IH]; intros st; simpl; [done|].
  destruct (apply_option fuel st p o) as [st1| |]; simpl; [apply IH|done..].
Qed.

Lemma call_options_app fuel st p opts1 opts2 :
  call_options fuel st p (opts1 ++ opts2) =
    (st1 ← call_options fuel st p opts1; call_options fuel st1 p opts2).
Proof.
  revert st. induction opts1 as [|o opts1 IH]; intros st; simpl; [done|].
  destruct (call_option fuel st p o) as [st1| |]; simpl; [apply IH|done..].
Qed.

(** On an argument list without a nil option, [E_values] is [E]. *)
Lemma E_values_Some fuel st c k opts :
  E_values fuel st c k (map Some opts) = E fuel st c k opts.
Proof. unfold E_values, E. simpl. by rewrite call_options_Some. Qed.

Lemma E_unfold fuel st c k opts :
  E fuel st c k opts =
    (st2 ← apply_options fuel (alloc_err st (default_Error c k)).1
             (Some (next_err st)) opts;
     Ok (st2, Some (next_err st))).
Proof. done. Qed.

Lemma E_inv fuel st c k opts st' p :
  E fuel st c k opts = Ok (st', p) →
  p = Some (next_err st) ∧
  apply_options fuel (alloc_err st (default_Error c k)).1 (Some (next_err st)) opts = Ok st'.
Proof.
  rewrite E_unfold. destruct (apply_options _ _ _ _) as [st2| |]; simpl; try done.
  by intros [= <- <-].
Qed.

End Helpers.

(** * The model on the scenarios of the package's tests *)

Section Scenarios.

Example format_int_samples :
  format_int 0 = "0" ∧ format_int 404 = "404" ∧ format_int (-12) = "-12".
Proof. repeat split. Qed.

Example setters_scenario_result :
  ∃ st b, setters_scenario = Ok (st, Some b) ∧
    cells (mh st) !! b = Some {["a" := AInt 3; "b" := AInt 2]}.
Proof. eexists _, _. split; [reflexivity|]. vm_compute. reflexivity. Qed.

Example nested_wrap_scenario_result :
  nested_wrap_scenario =
    Ok "repository.failure [internal] (500): customer.not_found [not_found] (404): db not found".
Proof. reflexivity. Qed.

Example Ensure_typed_nil_pointer :
  Ensure 0 empty_state (PtrError None) = Ok (empty_state, None).
Proof. reflexivity. Qed.

End Scenarios.

(** * The claims *)

Section Claims.

Implicit Types (st : state) (p : option nat) (e : Error) (fuel d n l : nat).

(** C1 (counterexample): on a nil receiver the five accessors dereference
    the receiver and panic. *)
Lemma C1_nil_receiver_accessors_panic :
  HTTPStatus empty_state None = Panic ∧
  Code empty_state None = Panic ∧
  Key empty_state None = Panic ∧
  Detail empty_state None = Panic ∧
  Context 1 empty_state None = Panic.
Proof. repeat split. Qed.

(** C1 (amended): on the nil receiver HTTPStatus(), Code(), Key(),
    Detail(), Unwrap() and Context() panic, while Error(), WithContextKV
    and WithContextMap return ("<nil>", nil and nil).  On every non-nil
    receiver HTTPStatus(), Code(), Key(), Detail(), Unwrap(),
    WithContextKV and WithContextMap return, and Context() returns
    (without touching any Error) when the fuel covers the nesting depth
    of the stored context.  New and Wrap return for every context mapping
    whose nesting depth the fuel covers, Ensure returns for every input,
    and E returns when each option is one built by the four constructors
    (WithContext on such a mapping) and panics when it reaches a nil
    option.  Error() returns on every Error of a store in which causes
    point to older Errors, and returns for no fuel on an Error that the
    option WithCause has made its own cause. *)
Theorem C1_operations_return_or_panic fuel st :
  (HTTPStatus st None = Panic ∧ Code st None = Panic ∧ Key st None = Panic ∧
   Detail st None = Panic ∧ Unwrap st None = Panic ∧
   Context fuel st None = Panic) ∧
  (Error_str fuel st None = Ok "<nil>" ∧
   (∀ k v, WithContextKV st None k v = Ok (st, None)) ∧
   (∀ m, WithContextMap st None m = Ok (st, None))) ∧
  (∀ l e, errs st !! l = Some e →
     HTTPStatus st (Some l) = Ok (httpStatus e) ∧
     Code st (Some l) = Ok (code e) ∧
     Key st (Some l) = Ok (key e) ∧
     Detail st (Some l) = Ok (detail e) ∧
     Unwrap st (Some l) = Ok (cause e) ∧
     (∀ k v, is_Ok (WithContextKV st (Some l) k v)) ∧
     (∀ m, is_Ok (WithContextMap st (Some l) m)) ∧
     (valid_map fuel (mh st) (context e) →
        ∃ st' r, Context fuel st (Some l) = Ok (st', r) ∧ errs st' = errs st)) ∧
  ((∀ status c k dt ctx causes, valid_map fuel (mh st) ctx →
      is_Ok (New fuel st status c k dt ctx causes)) ∧
   (∀ cause0 status c k dt ctx, valid_map fuel (mh st) ctx →
      is_Ok (Wrap fuel st cause0 status c k dt ctx)) ∧
   (∀ err, is_Ok (Ensure fuel st err)) ∧
   (∀ c k opts, Forall (option_ok fuel (mh st)) opts →
      is_Ok (E_values fuel st c k (map Some opts))) ∧
   (∀ c k opts1 opts2, Forall (option_ok fuel (mh st)) opts1 →
      E_values fuel st c k (map Some opts1 ++ None :: opts2) = Panic)) ∧
  ((causes_ok st → ∀ l, is_Some (errs st !! l) → l < fuel →
      is_Ok (Error_str fuel st (Some l))) ∧
   (∀ l e, errs st !! l = Some e →
      ∃ st', apply_option fuel st (Some l) (WithCause (PtrError (Some l))) = Ok st' ∧
        ∀ f, Error_str f st' (Some l) = Stuck)).
Proof.
  split; [done|]. split; [split; [apply Error_str_nil|done]|].
  split; [|split].
  - intros l e He. unfold HTTPStatus, Code, Key, Detail, Unwrap, deref. rewrite He.
    do 5 (split; [done|]). split; [|split].
    + intros k v. unfold WithContextKV, deref. rewrite He. simpl.
      destruct (ensure_context st l e). by eexists.
    + intros m. unfold WithContextMap, deref. case_decide; [by eexists|].
      rewrite He. simpl. destruct (ensure_context st l e). by eexists.
    + intros Hv.
      destruct (Context_spec fuel fuel st l e) as (h & r & Hc & _); try done.
      by exists (set_mh st h), r.
  - split; [|split; [|split; [|split]]].
    + intros status c k dt ctx causes Hctx.
      destruct (New_spec fuel fuel st status c k dt ctx causes) as (h & r & _ & HN);
        [done..|]. by eexists.
    + intros cause0 status c k dt ctx Hctx.
      destruct (Wrap_spec fuel fuel st cause0 status c k dt ctx) as (h & r & _ & HW);
        [done..|]. by eexists.
    + intros err. unfold Ensure.
      destruct err as [|q|i msg|i msg inner]; try by eexists.
      * rewrite Wrap_nil_context. by eexists.
      * destruct (errors_As (WrapError i msg inner)); [by eexists|].
        rewrite Wrap_nil_context. by eexists.
    + intros c k opts Hopts.
      destruct (apply_options_total fuel (next_err st) opts
                  (alloc_err st (default_Error c k)).1) as [st' Hrun].
      { simpl. rewrite lookup_insert_eq. by eexists. }
      { exact Hopts. }
      rewrite E_values_Some, E_unfold, Hrun. by eexists.
    + intros c k opts1 opts2 Hopts.
      destruct (apply_options_total fuel (next_err st) opts1
                  (alloc_err st (default_Error c k)).1) as [st' Hrun].
      { simpl. rewrite lookup_insert_eq. by eexists. }
      { exact Hopts. }
      unfold E_values. simpl. rewrite call_options_app, call_options_Some.
      unfold default_Error in Hrun. simpl in Hrun. by rewrite Hrun.
  - split.
    + intros Hok l Hsome Hlt. by apply Error_str_total.
    + intros l e He. unfold apply_option, deref. rewrite He. simpl.
      eexists. split; [done|].
      apply (Error_str_self_cause _ l (with_cause e (PtrError (Some l)))); [|done].
      simpl. apply lookup_insert_eq.
Qed.

Lemma C1_operations_witness :
  let e := mkError 404 "c" "k" "d" None NilError in
  let st := State {[0 := e]} 1 (MHeap ∅ 0) 0 in
  HTTPStatus st (Some 0) = Ok 404%Z ∧ Code st (Some 0) = Ok "c" ∧
  (∃ st' r, Context 0 st (Some 0) = Ok (st', r) ∧ errs st' = errs st) ∧
  E_values 0 st "c" "k" [Some (WithDetail "x"); None] = Panic.
Proof.
  intros e st.
  destruct (C1_operations_return_or_panic 0 st)
    as (_ & _ & Hnn & (_ & _ & _ & _ & HEnil) & _).
  destruct (Hnn 0 e eq_refl) as (H1 & H2 & _ & _ & _ & _ & _ & HC).
  split; [exact H1|]. split; [exact H2|]. split; [apply HC; exact I|].
  apply (HEnil "c" "k" [WithDetail "x"] []). repeat constructor.
Defined.

(** C2 (failing input): an error made by [fmt.Errorf("lookup: %w", e)]
    around an existing Error [e] is not of the Error type, so the rules of
    the claim, which are those of Ensure's own doc comment, ask for a new
    Error with status 500 and code "internal.error" whose cause is the
    input.  Ensure returns [e] itself instead: no Error is made, the
    result has the code and status of [e], and its cause is not the
    input.  On the same path a non-nil error made around a nil Error
    pointer is turned into nil. *)
Lemma C2_ensure_returns_inner_Error :
  annotated_not_found ≠ NilError ∧
  (∀ p, annotated_not_found ≠ PtrError p) ∧
  Ensure 1 not_found_state annotated_not_found = Ok (not_found_state, Some 0) ∧
  Code not_found_state (Some 0) = Ok "customer.not_found" ∧
  HTTPStatus not_found_state (Some 0) = Ok 404%Z ∧
  Unwrap not_found_state (Some 0) = Ok NilError ∧
  Ensure 1 empty_state (WrapError 0 "x: <nil>" (PtrError None)) = Ok (empty_state, None).
Proof. repeat split; done. Qed.

(** C3 (counterexample): for M = {"a": {}} the map returned by Context()
    holds a nil map under "a" where M holds an empty, non-nil map: the two
    are not structurally equal. *)
Lemma C3_nested_empty_map_reads_back_nil :
  ∃ st1 st2 b,
    New 1 nested_empty_state 200 "c" "k" "d" (Some 0) [] = Ok (st1, Some 0) ∧
    Context 1 st1 (Some 0) = Ok (st2, Some b) ∧
    cells (mh nested_empty_state) !! 0 = Some {["a" := AMap (Some 1)]} ∧
    cells (mh nested_empty_state) !! 1 = Some ∅ ∧
    cells (mh st2) !! b = Some {["a" := AMap None]} ∧
    ¬ deep_equal (mh st2) (Some b) (mh nested_empty_state) (Some 0).
Proof.
  eexists _, _, _. split; [reflexivity|]. split; [reflexivity|].
  split; [reflexivity|]. split; [reflexivity|]. split; [reflexivity|].
  intros Heq. specialize (Heq 2). vm_compute in Heq. discriminate Heq.
Qed.

(** C3 (amended): for a non-empty mapping M of finite nesting depth,
    New(..., M) returns an Error whose internal map lives in cells
    allocated by New.  In every later store that left those cells and the
    Error alone (writes to and deletes from any other cell, such as the
    cells of M or of maps returned earlier, lead to such stores, and so do
    Context() calls), Context() returns a non-nil map made of new cells
    only, hence different from M and from the internal map at every
    level of nesting, which reads as M did when New was called, with
    every empty map nested in M read as a nil map; when M holds no empty
    map it is structurally equal to M as it was then. *)
Theorem C3_context_is_defensive_copy fuel d st a m status c k dt causes :
  cells (mh st) !! a = Some m → m ≠ ∅ →
  valid_map d (mh st) (Some a) → d ≤ fuel →
  ∃ st1 l e1,
    New fuel st status c k dt (Some a) causes = Ok (st1, Some l) ∧
    errs st1 !! l = Some e1 ∧
    within (fun x => next (mh st) ≤ x < next (mh st1)) fuel (mh st1) (context e1) ∧
    untouched (next (mh st)) (next (mh st1)) l st1 st1 ∧
    ∀ st', untouched (next (mh st)) (next (mh st1)) l st1 st' →
      (∀ b k0 v, b < next (mh st) ∨ next (mh st1) ≤ b →
         untouched (next (mh st)) (next (mh st1)) l st1
           (set_mh st' (map_assign (mh st') b k0 v)) ∧
         untouched (next (mh st)) (next (mh st1)) l st1
           (set_mh st' (map_delete (mh st') b k0))) ∧
      ∃ st'' b,
        Context fuel st' (Some l) = Ok (st'', Some b) ∧
        clone_equal (mh st) (Some a) (mh st'') (Some b) ∧
        ((∀ n, no_empty n (mh st) (Some a)) →
           deep_equal (mh st'') (Some b) (mh st) (Some a)) ∧
        within (fun x => next (mh st') ≤ x < next (mh st'')) fuel (mh st'') (Some b) ∧
        b ≠ a ∧ Some b ≠ context e1 ∧
        untouched (next (mh st)) (next (mh st1)) l st1 st''.
Proof.
  intros Ha Hm Hv Hle.
  destruct (New_spec fuel d st status c k dt (Some a) causes) as
    (h1 & r0 & (Hle1 & Hp1 & Hw1 & Hd1 & _) & HNew); [done..|].
  simpl in Hle1, Hp1, Hw1, Hd1.
  set (e1 := mkError status c k dt r0 (hd NilError causes)).
  eexists _, (next_err st), e1. split; [exact HNew|].
  split; [apply lookup_insert_eq|]. simpl.
  split; [exact Hw1|]. split; [by repeat split|].
  intros st' (Herr & Hnext & Hpres). simpl in Herr, Hnext, Hpres.
  rewrite lookup_insert_eq in Herr.
  assert (Halo : a < next (mh st)) by exact (within_Some _ _ _ _ Hv).
  split.
  - intros b k0 v Hb. split; (split; [by simpl; rewrite lookup_insert_eq|]);
      (split; [done|]); intros x Hx; simpl;
      rewrite lookup_alter_ne by lia; by apply Hpres.
  - assert (Hw' : within (fun x => x < next (mh st')) fuel (mh st') r0).
    { eapply within_mono; [|eapply within_frame; [exact Hpres|exact Hw1]].
      simpl. lia. }
    destruct (cloneMap_spec fuel (mh st') r0 Hw') as
      ([h2 r2] & Hc & Hle2 & Hp2 & Hw2 & Hd2 & _).
    simpl in Hle2, Hp2, Hw2, Hd2.
    assert (Hread : ∀ n, denote n h2 r2 = denote_norm n (mh st) (Some a)).
    { intros n. rewrite Hd2.
      rewrite (denote_norm_frame _ _ _ _ _ _ Hpres Hw1).
      rewrite (clone_image_normal (mh st) h1 n (Some a) r0 Hd1). apply Hd1. }
    destruct r2 as [b|].
    2:{ specialize (Hread 1). rewrite (denote_norm_cell _ _ _ _ Ha Hm) in Hread.
        discriminate Hread. }
    pose proof (within_Some _ _ _ _ Hw2) as Hb. simpl in Hb.
    exists (set_mh st' h2), b. split.
    { unfold Context, deref. rewrite Herr. simpl. by rewrite Hc. }
    split; [exact Hread|]. split.
    { intros Hne n. rewrite Hread. by apply denote_norm_no_empty. }
    split; [exact Hw2|]. split; [lia|]. split.
    { destruct r0 as [b0|]; [|done]. pose proof (within_Some _ _ _ _ Hw1) as Hb0.
      simpl in Hb0. intros [= ->]. lia. }
    split; [by simpl; rewrite lookup_insert_eq|]. split; [simpl; lia|].
    simpl. intros x Hx. rewrite Hp2 by lia. by apply Hpres.
Qed.

Lemma C3_context_copy_witness :
  let st := State ∅ 0 (MHeap {[0 := {["a" := AInt 1]}]} 1) 0 in
  ∃ st1 l e1,
    New 1 st 404 "customer.not_found" "not_found" "customer 42 not found"
      (Some 0) [] = Ok (st1, Some l) ∧
    errs st1 !! l = Some e1 ∧
    ∃ st2 b, Context 1 st1 (Some l) = Ok (st2, Some b) ∧
      clone_equal (mh st) (Some 0) (mh st2) (Some b) ∧ b ≠ 0.
Proof.
  intros st.
  destruct (C3_context_is_defensive_copy 1 1 st 0 {["a" := AInt 1]} 404
              "customer.not_found" "not_found" "customer 42 not found" [])
    as (st1 & l & e1 & HNew & He1 & _ & Hrefl & Hlater).
  - reflexivity.
  - intros Hemp. apply (f_equal (fun x : gmap string any => x !! "a")) in Hemp.
    discriminate Hemp.
  - split; [simpl; lia|]. exists {["a" := AInt 1]}. split; [reflexivity|].
    intros k0 r' Hk0. apply lookup_singleton_Some in Hk0 as [_ Hk0]. discriminate Hk0.
  - lia.
  - exists st1, l, e1. split; [exact HNew|]. split; [exact He1|].
    destruct (Hlater st1 Hrefl) as (_ & st2 & b & HC & Heq & _ & _ & Hb & _).
    exists st2, b. split; [exact HC|]. split; [exact Heq|exact Hb].
Defined.

(** C4: constructing an Error with a nil or empty context mapping, by
    New, by Wrap or by E with WithContext, stores no context, and
    Context() then returns nil, not an empty map. *)
Theorem C4_empty_context_normalizes_to_nil fuel fuel' st status c k dt ctx causes cause0 :
  is_empty_map (mh st) ctx →
  (∃ st1 l e1,
     New fuel st status c k dt ctx causes = Ok (st1, Some l) ∧
     errs st1 !! l = Some e1 ∧ context e1 = None ∧
     Context fuel' st1 (Some l) = Ok (st1, None)) ∧
  (∃ st1 l e1,
     Wrap fuel st cause0 status c k dt ctx = Ok (st1, Some l) ∧
     errs st1 !! l = Some e1 ∧ context e1 = None ∧
     Context fuel' st1 (Some l) = Ok (st1, None)) ∧
  (∃ st1 l e1,
     E fuel st c k [WithContext ctx] = Ok (st1, Some l) ∧
     errs st1 !! l = Some e1 ∧ context e1 = None ∧
     Context fuel' st1 (Some l) = Ok (st1, None)).
Proof.
  intros Hemp.
  assert (Hclone : ∀ st0, mh st0 = mh st →
            cloneMap fuel (mh st0) ctx = Ok (mh st0, None)).
  { intros st0 ->. destruct ctx as [a|]; [by apply cloneMap_empty|apply cloneMap_nil]. }
  assert (HCtx : ∀ st1 l e1, errs st1 !! l = Some e1 → context e1 = None →
            Context fuel' st1 (Some l) = Ok (st1, None)).
  { intros st1 l e1 He1 Hc. unfold Context, deref. rewrite He1. simpl.
    rewrite Hc, cloneMap_nil. simpl. by rewrite set_mh_id. }
  split; [|split].
  - unfold New. rewrite (Hclone st eq_refl). simpl.
    eexists _, _, _. split; [done|]. split; [apply lookup_insert_eq|].
    split; [by destruct causes|]. eapply HCtx; [apply lookup_insert_eq|].
    by destruct causes.
  - unfold Wrap, New.
    destruct cause0; simpl; rewrite (Hclone st eq_refl); simpl;
      unfold set_cause, deref; simpl; rewrite lookup_insert_eq; simpl;
      (eexists _, _, _; split; [done|]; split; [apply lookup_insert_eq|];
       split; [done|]; eapply HCtx; [apply lookup_insert_eq|done]).
  - unfold E, apply_options, apply_option, deref. simpl.
    rewrite lookup_insert_eq. simpl. rewrite (Hclone st eq_refl). simpl.
    eexists _, _, _. split; [done|]. split; [apply lookup_insert_eq|].
    split; [done|]. eapply HCtx; [apply lookup_insert_eq|done].
Qed.

Lemma C4_empty_context_witness :
  let st := State ∅ 0 (MHeap {[0 := ∅]} 1) 0 in
  ∃ st1 l e1,
    New 0 st 200 "c" "k" "d" (Some 0) [] = Ok (st1, Some l) ∧
    errs st1 !! l = Some e1 ∧ context e1 = None ∧
    Context 0 st1 (Some l) = Ok (st1, None).
Proof.
  intros st.
  destruct (C4_empty_context_normalizes_to_nil 0 0 st 200 "c" "k" "d" (Some 0) [] NilError)
    as [HNew _]; [reflexivity|exact HNew].
Defined.

(** C5: Wrap always returns an Error whose Unwrap() is not nil; when the
    cause passed in is nil, Unwrap() is a fresh placeholder error whose
    message is exactly "unknown", and otherwise it is the cause itself. *)
Theorem C5_wrap_never_leaves_cause_nil fuel d st cause0 status c k dt ctx :
  valid_map d (mh st) ctx → d ≤ fuel →
  ∃ st' l x,
    Wrap fuel st cause0 status c k dt ctx = Ok (st', Some l) ∧
    Unwrap st' (Some l) = Ok x ∧ x ≠ NilError ∧
    (cause0 = NilError →
       x = ErrorString (next_id st) "unknown" ∧
       ∀ f, error_message f st' x = Ok "unknown") ∧
    (cause0 ≠ NilError → x = cause0).
Proof.
  intros Hv Hle.
  destruct (Wrap_spec fuel d st cause0 status c k dt ctx) as (h & r & _ & HW);
    [done..|].
  eexists _, _, (wrapped_cause st cause0). split; [exact HW|].
  split; [|split; [apply wrapped_cause_not_nil|split]].
  - unfold Unwrap, deref. simpl. by rewrite lookup_insert_eq.
  - by intros ->.
  - by destruct cause0.
Qed.

Lemma C5_wrap_nil_cause_witness :
  ∃ st' l x,
    Wrap 0 empty_state NilError 500 "c" "k" "d" None = Ok (st', Some l) ∧
    Unwrap st' (Some l) = Ok x ∧ x ≠ NilError ∧
    (NilError = NilError →
       x = ErrorString (next_id empty_state) "unknown" ∧
       ∀ f, error_message f st' x = Ok "unknown") ∧
    (NilError ≠ NilError → x = NilError).
Proof.
  apply (C5_wrap_never_leaves_cause_nil 0 0 empty_state NilError 500 "c" "k" "d" None).
  - exact I.
  - lia.
Defined.

(** C6: Error() on a non-nil receiver is "<code> [<key>] (<status>)" when
    there is no cause and that string followed by ": " and the cause's
    own Error() string when there is one; the result is the same in every
    store that agrees on codes, keys, statuses and causes, whatever the
    details and the contexts are; and on the nil receiver it is "<nil>". *)
Theorem C6_diagnostic_string fuel st l e :
  errs st !! l = Some e → causes_ok st → l < fuel →
  (cause e = NilError →
     Error_str fuel st (Some l) =
       Ok (code e ++ " [" ++ key e ++ "] (" ++ format_int (httpStatus e) ++ ")")) ∧
  (cause e ≠ NilError →
     ∃ s, error_message fuel st (cause e) = Ok s ∧
       Error_str fuel st (Some l) =
         Ok ((code e ++ " [" ++ key e ++ "] (" ++ format_int (httpStatus e) ++ ")")
               ++ ": " ++ s)) ∧
  (∀ st', same_rendered st st' →
     Error_str fuel st' (Some l) = Error_str fuel st (Some l)) ∧
  Error_str fuel st None = Ok "<nil>".
Proof.
  intros He Hok Hlt. split; [|split; [|split]].
  - intros Hc. destruct fuel; simpl; by rewrite He, Hc.
  - intros Hc. destruct (Error_str_total st Hok fuel l) as [s Hs]; [done..|].
    destruct fuel as [|fuel]; [lia|].
    pose proof Hs as Hs'. simpl in Hs'. rewrite He in Hs'.
    destruct (cause e) as [|q|i msg|i msg inner] eqn:Hce; try done.
    + destruct (Error_str fuel st q) as [s0| |] eqn:Hq; try done.
      exists s0. split.
      * change (Error_str (S fuel) st q = Ok s0).
        apply (Error_str_fuel_mono fuel); [done|lia].
      * by rewrite Hs, <- Hs'.
    + exists msg. split; [done|]. by rewrite Hs, <- Hs'.
    + exists msg. split; [done|]. by rewrite Hs, <- Hs'.
  - intros st' Hsame. by apply Error_str_same_rendered.
  - apply Error_str_nil.
Qed.

Lemma C6_diagnostic_string_witness :
  let h := MHeap {[0 := {["secret" := AStr "do-not-leak"]}]} 1 in
  let e := mkError 500 "internal.error" "internal" "internal error" (Some 0) NilError in
  let st := State {[0 := e]} 1 h 0 in
  Error_str 1 st (Some 0) = Ok "internal.error [internal] (500)".
Proof.
  intros h e st.
  destruct (C6_diagnostic_string 1 st 0 e) as [Hnocause _].
  - reflexivity.
  - intros l e' Hl. unfold st in Hl. simpl in Hl.
    apply lookup_singleton_Some in Hl as [<- <-]. exact I.
  - lia.
  - apply Hnocause. reflexivity.
Defined.

(** C7: for e1 = Wrap(cause, ...) and e2 = Wrap(e1, ...): both calls
    return, e2.Unwrap() is e1 and e1.Unwrap() is the cause that Wrap
    stored, which is the given cause whenever one was given; so the lookup
    that follows Unwrap from e2 ([errors.Is]) reaches e1 and reaches the
    cause; and Code(), Key(), HTTPStatus() of e2 are the arguments of its
    own construction. *)
Theorem C7_two_level_chain fuel d1 st cause0 s1 c1 k1 dt1 ctx1 s2 c2 k2 dt2 :
  valid_map d1 (mh st) ctx1 → d1 ≤ fuel →
  ∃ st1 l1,
    Wrap fuel st cause0 s1 c1 k1 dt1 ctx1 = Ok (st1, Some l1) ∧
    (cause0 ≠ NilError → wrapped_cause st cause0 = cause0) ∧
    ∀ d2 ctx2, valid_map d2 (mh st1) ctx2 → d2 ≤ fuel →
      ∃ st2 l2,
        Wrap fuel st1 (PtrError (Some l1)) s2 c2 k2 dt2 ctx2 = Ok (st2, Some l2) ∧
        Unwrap st2 (Some l2) = Ok (PtrError (Some l1)) ∧
        Unwrap st2 (Some l1) = Ok (wrapped_cause st cause0) ∧
        (∀ f, 1 ≤ f →
           errors_Is f st2 (PtrError (Some l2)) (PtrError (Some l1)) = Ok true) ∧
        (∀ f, 2 ≤ f →
           errors_Is f st2 (PtrError (Some l2)) (wrapped_cause st cause0) = Ok true) ∧
        Code st2 (Some l2) = Ok c2 ∧ Key st2 (Some l2) = Ok k2 ∧
        HTTPStatus st2 (Some l2) = Ok s2.
Proof.
  intros Hv1 Hle1.
  destruct (Wrap_spec fuel d1 st cause0 s1 c1 k1 dt1 ctx1) as (h1 & r1 & _ & HW1);
    [done..|].
  eexists _, _. split; [exact HW1|]. split; [by destruct cause0|].
  intros d2 ctx2 Hv2 Hle2.
  match type of HW1 with _ = Ok (?s, _) => set (st1 := s) in * end.
  destruct (Wrap_spec fuel d2 st1 (PtrError (Some (next_err st))) s2 c2 k2 dt2 ctx2)
    as (h2 & r2 & _ & HW2); [done..|].
  eexists _, _. split; [exact HW2|].
  match type of HW2 with _ = Ok (?s, _) => set (st2 := s) in * end.
  set (l1 := next_err st). set (l2 := S l1).
  set (x := wrapped_cause st cause0).
  set (e1 := mkError s1 c1 k1 dt1 r1 x).
  set (e2 := mkError s2 c2 k2 dt2 r2 (PtrError (Some l1))).
  assert (Hx : x ≠ NilError) by apply wrapped_cause_not_nil.
  assert (He2 : errs st2 !! l2 = Some e2) by apply lookup_insert_eq.
  assert (He1 : errs st2 !! l1 = Some e1).
  { unfold st2, st1. simpl. rewrite lookup_insert_ne by (unfold l1; lia).
    by rewrite lookup_insert_eq. }
  assert (Hne : error_eqb (PtrError (Some l2)) (PtrError (Some l1)) = false).
  { simpl. apply bool_decide_eq_false. intros [= Heq]. unfold l2 in Heq. lia. }
  change (next_err st1) with l2.
  split; [by unfold Unwrap, deref; rewrite He2|].
  split; [by unfold Unwrap, deref; rewrite He1|].
  split; [|split].
  - intros [|f] Hf; [lia|]. unfold errors_Is.
    rewrite (errors_is_step _ _ _ e2); try done. apply errors_is_here.
  - intros [|[|f]] Hf; try lia. rewrite errors_Is_not_nil by done.
    destruct (error_eqb (PtrError (Some l2)) x) eqn:Heq.
    + simpl. simpl in Heq. by rewrite Heq.
    + rewrite (errors_is_step _ _ _ e2); try done.
      by apply (errors_is_cause f st2 l1 e1).
  - unfold Code, Key, HTTPStatus, deref. by rewrite He2.
Qed.

Lemma C7_two_level_chain_witness :
  ∃ st1 l1,
    Wrap 0 empty_state (ErrorString 7 "db not found") 404 "customer.not_found"
      "not_found" "customer not found" None = Ok (st1, Some l1) ∧
    ∃ st2 l2,
      Wrap 0 st1 (PtrError (Some l1)) 500 "repository.failure" "internal"
        "repository failure" None = Ok (st2, Some l2) ∧
      errors_Is 2 st2 (PtrError (Some l2)) (PtrError (Some l1)) = Ok true ∧
      errors_Is 2 st2 (PtrError (Some l2)) (ErrorString 7 "db not found") = Ok true ∧
      Code st2 (Some l2) = Ok "repository.failure".
Proof.
  destruct (C7_two_level_chain 0 0 empty_state (ErrorString 7 "db not found")
              404 "customer.not_found" "not_found" "customer not found" None
              500 "repository.failure" "internal" "repository failure")
    as (st1 & l1 & HW1 & _ & Hnext); [exact I|lia|].
  exists st1, l1. split; [exact HW1|].
  destruct (Hnext 0 None) as (st2 & l2 & HW2 & _ & _ & HIs1 & HIs2 & HCode & _);
    [by destruct (next (mh st1))|lia|].
  exists st2, l2. split; [exact HW2|].
  split; [apply HIs1; lia|]. split; [apply HIs2; lia|exact HCode].
Defined.

(** C8: WithContextKV and WithContextMap on a nil receiver return the nil
    receiver and leave the store as it was. *)
Theorem C8_nil_receiver_with_context_is_noop st k v m :
  WithContextKV st None k v = Ok (st, None) ∧
  WithContextMap st None m = Ok (st, None).
Proof. done. Qed.

(** C9: E(code, key) alone builds an Error with status 500, detail
    "error", no context and no cause; applying one option assigns the one
    attribute it names (WithContext assigns what cloneMap returns for its
    mapping at that moment) and keeps every other attribute and every other
    Error; E applies its options from left to right; the last option that
    names an attribute decides it, and an attribute no option names keeps
    its default; and E returns whenever the fuel covers the nesting depth
    of the mappings given to WithContext.  WithContext clones its mapping
    when it is applied: the context of the Error that E returns is nil
    exactly when the mapping was nil or empty, and otherwise a map made
    only of cells allocated during the call, which reads as the mapping
    did at the call (empty nested maps as nil, so structurally equal to
    it when it holds no empty map); no cell that existed
    before the call is written, and a write the caller makes afterwards
    to any cell that existed before the call, such as a cell of the
    mapping, does not change what Context() returns. *)
Theorem C9_builder_defaults_and_options fuel st c k :
  (∃ st', E fuel st c k [] = Ok (st', Some (next_err st)) ∧
     HTTPStatus st' (Some (next_err st)) = Ok 500%Z ∧
     Detail st' (Some (next_err st)) = Ok "error" ∧
     Code st' (Some (next_err st)) = Ok c ∧
     Key st' (Some (next_err st)) = Ok k ∧
     (∀ f, Context f st' (Some (next_err st)) = Ok (st', None)) ∧
     Unwrap st' (Some (next_err st)) = Ok NilError) ∧
  (∀ st0 l o st1, apply_option fuel st0 (Some l) o = Ok st1 →
     ∃ e e', errs st0 !! l = Some e ∧ errs st1 !! l = Some e' ∧
       option_effect fuel st0 o e e' (mh st1) ∧
       (∀ a, a ≠ attr_of o → keeps a e e') ∧
       code e' = code e ∧ key e' = key e ∧
       (∀ q, q ≠ l → errs st1 !! q = errs st0 !! q)) ∧
  (∀ opts1 opts2,
     E fuel st c k (opts1 ++ opts2) =
       ('(st1, p) ← E fuel st c k opts1;
        st2 ← apply_options fuel st1 p opts2; Ok (st2, p))) ∧
  (∀ opts1 o opts2 st' p,
     E fuel st c k (opts1 ++ o :: opts2) = Ok (st', p) →
     Forall (fun o' => attr_of o' ≠ attr_of o) opts2 →
     match o with
     | WithHTTPStatus status => HTTPStatus st' p = Ok status
     | WithDetail dt => Detail st' p = Ok dt
     | WithCause x => Unwrap st' p = Ok x
     | WithContext ctx =>
       ∃ st1 e', E fuel st c k opts1 = Ok (st1, p) ∧ deref st' p = Ok e' ∧
         cloneMap fuel (mh st1) ctx = Ok (mh st', context e')
     end) ∧
  (∀ opts a st' p,
     E fuel st c k opts = Ok (st', p) →
     Forall (fun o => attr_of o ≠ a) opts →
     ∃ e', deref st' p = Ok e' ∧ keeps a (default_Error c k) e' ∧
       code e' = c ∧ key e' = k) ∧
  (∀ opts, Forall (option_ok fuel (mh st)) opts →
     ∃ st', E fuel st c k opts = Ok (st', Some (next_err st))) ∧
  (∀ opts1 ctx opts2,
     Forall (option_ok fuel (mh st)) opts1 → valid_map fuel (mh st) ctx →
     Forall (fun o' => attr_of o' ≠ AContext) opts2 →
     ∃ st' e',
       E fuel st c k (opts1 ++ WithContext ctx :: opts2) = Ok (st', Some (next_err st)) ∧
       errs st' !! next_err st = Some e' ∧
       (context e' = None ↔ len (mh st) ctx = 0) ∧
       within (fun a => next (mh st) ≤ a < next (mh st')) fuel (mh st') (context e') ∧
       clone_equal (mh st) ctx (mh st') (context e') ∧
       ((∀ n, no_empty n (mh st) ctx) →
          deep_equal (mh st') (context e') (mh st) ctx) ∧
       preserves (fun a => a < next (mh st)) (mh st) (mh st') ∧
       ∀ b k0 v, b < next (mh st) →
         ∃ st'' r,
           Context fuel (set_mh st' (map_assign (mh st') b k0 v)) (Some (next_err st))
             = Ok (st'', r) ∧
           clone_equal (mh st) ctx (mh st'') r).
Proof.
  split; [|split; [|split; [|split; [|split; [|split]]]]].
  - eexists. split; [done|].
    unfold HTTPStatus, Detail, Code, Key, Unwrap, Context, deref. simpl.
    rewrite lookup_insert_eq. simpl. repeat split.
    intros f. by rewrite cloneMap_nil.
  - intros st0 l o st1 Hap.
    destruct (apply_option_inv _ _ _ _ _ Hap) as (e & e' & He & Heff & Hst1).
    exists e, e'. split; [done|].
    split; [rewrite Hst1; apply lookup_insert_eq|]. split; [done|].
    split; [intros a Ha; by eapply option_effect_keeps|].
    destruct (option_effect_names _ _ _ _ _ _ Heff) as [Hc Hk].
    split; [done|]. split; [done|].
    intros q Hq. rewrite Hst1. simpl. by rewrite lookup_insert_ne.
  - intros opts1 opts2. rewrite !E_unfold, apply_options_app.
    by destruct (apply_options _ _ _ opts1).
  - intros opts1 o opts2 st' p HE Hall.
    apply E_inv in HE as [-> Hrun]. rewrite apply_options_app in Hrun.
    destruct (apply_options _ _ _ opts1) as [st1| |] eqn:H1; try done.
    simpl in Hrun.
    destruct (apply_option fuel st1 (Some (next_err st)) o) as [st2| |] eqn:Hap;
      try done.
    simpl in Hrun.
    destruct (apply_option_inv _ _ _ _ _ Hap) as (e1 & e2 & He1 & Heff & Hst2).
    destruct (apply_options_keeps fuel (attr_of o) (next_err st) opts2 st2 e2 st' Hrun)
      as (e' & He' & Hk & _ & _ & Hmh); [rewrite Hst2; apply lookup_insert_eq|done|].
    assert (HE1 : E fuel st c k opts1 = Ok (st1, Some (next_err st)))
      by (by rewrite E_unfold, H1).
    unfold HTTPStatus, Detail, Unwrap, deref. rewrite He'.
    destruct o as [status|dt|ctx|x]; simpl in *.
    + destruct Heff as [-> _]. by rewrite Hk.
    + destruct Heff as [-> _]. by rewrite Hk.
    + destruct Heff as (r & Hc & ->). exists st1, e'.
      split; [done|]. split; [done|].
      rewrite Hk, Hmh by done. exact Hc.
    + destruct Heff as [-> _]. by rewrite Hk.
  - intros opts a st' p HE Hall. apply E_inv in HE as [-> Hrun].
    destruct (apply_options_keeps fuel a (next_err st) opts _ (default_Error c k) st' Hrun)
      as (e' & He' & Hk & Hc & Hkey & _); [apply lookup_insert_eq|done|].
    exists e'. unfold deref. by rewrite He'.
  - intros opts Hall.
    destruct (apply_options_total fuel (next_err st) opts
                (alloc_err st (default_Error c k)).1) as [st' Hrun].
    { simpl. rewrite lookup_insert_eq. by eexists. }
    { exact Hall. }
    exists st'. by rewrite E_unfold, Hrun.
  - intros opts1 ctx opts2 Hall1 Hctx Hall2.
    assert (Hall : Forall (option_ok fuel (mh st)) (opts1 ++ WithContext ctx :: opts2)).
    { apply Forall_app. split; [done|]. apply Forall_cons. split; [done|].
      eapply Forall_impl; [exact Hall2|]. by intros [| |?|]. }
    destruct (apply_options_total fuel (next_err st) (opts1 ++ WithContext ctx :: opts2)
                (alloc_err st (default_Error c k)).1)
      as [st' Hrun]; [simpl; rewrite lookup_insert_eq; by eexists|exact Hall|].
    assert (HE : E fuel st c k (opts1 ++ WithContext ctx :: opts2) = Ok (st', Some (next_err st)))
      by (by rewrite E_unfold, Hrun).
    rewrite apply_options_app in Hrun.
    destruct (apply_options _ _ _ opts1) as [st1| |] eqn:H1; try done.
    simpl in Hrun.
    destruct (apply_option fuel st1 (Some (next_err st)) (WithContext ctx)) as [st2| |] eqn:Hap;
      try done.
    simpl in Hrun.
    destruct (apply_option_inv _ _ _ _ _ Hap) as (e1 & e2 & He1 & (r & Hc & ->) & Hst2).
    destruct (apply_options_keeps fuel AContext (next_err st) opts2 st2 (with_context e1 r) st' Hrun)
      as (e' & He' & Hk & _ & _ & Hmh); [rewrite Hst2; apply lookup_insert_eq|done|].
    simpl in Hk. specialize (Hmh eq_refl).
    destruct (apply_options_frame fuel (next_err st) opts1 _ st1 H1 Hall1) as [Hle1 Hp1].
    simpl in Hle1, Hp1.
    assert (Hctx1 : valid_map fuel (mh st1) ctx).
    { by apply (option_ok_frame fuel (mh st) (mh st1) (WithContext ctx)). }
    destruct (cloneMap_spec fuel (mh st1) ctx Hctx1) as
      (res & Hc' & Hle2 & Hp2 & Hw2 & Hd2 & Hnil2).
    rewrite Hc in Hc'. injection Hc' as <-.
    simpl in Hle2, Hp2, Hw2, Hd2, Hnil2.
    assert (Hclone : clone_equal (mh st) ctx (mh st') (context e')).
    { intros n. rewrite Hk, Hmh, Hd2. exact (denote_norm_frame _ _ _ _ _ _ Hp1 Hctx). }
    assert (Hw' : within (fun a => next (mh st) ≤ a < next (mh st')) fuel (mh st')
                    (context e')).
    { rewrite Hk, Hmh. eapply within_mono; [|exact Hw2]. simpl. lia. }
    assert (Hp' : preserves (fun a => a < next (mh st)) (mh st) (mh st')).
    { rewrite Hmh. eapply preserves_trans; [exact Hp1|].
      eapply preserves_weaken; [|exact Hp2]. simpl. lia. }
    exists st', e'. split; [exact HE|]. split; [exact He'|]. split.
    { rewrite Hk, Hnil2. destruct ctx as [a|]; [|done]. simpl.
      rewrite (Hp1 a); [done|]. exact (within_Some _ _ _ _ Hctx). }
    split; [exact Hw'|]. split; [exact Hclone|]. split.
    { intros Hne n. rewrite Hclone. by apply denote_norm_no_empty. }
    split; [exact Hp'|].
    intros b k0 v Hb.
    set (h3 := map_assign (mh st') b k0 v).
    assert (Hp3 : preserves (fun a => next (mh st) ≤ a < next (mh st')) (mh st') h3).
    { intros x Hx. simpl. rewrite lookup_alter_ne; [done|lia]. }
    assert (Hw3 : within (fun a => a < next h3) fuel h3 (context e')).
    { eapply within_mono; [|eapply within_frame; [exact Hp3|exact Hw']].
      simpl. lia. }
    destruct (cloneMap_spec fuel h3 (context e') Hw3) as
      ([h4 r4] & Hc4 & _ & _ & _ & Hd4 & _).
    simpl in Hd4.
    exists (set_mh (set_mh st' h3) h4), r4. split.
    { unfold Context, deref. simpl. rewrite He'. simpl. by rewrite Hc4. }
    intros n. simpl. rewrite Hd4.
    rewrite (denote_norm_frame _ _ _ _ _ _ Hp3 Hw').
    rewrite (clone_image_normal (mh st) (mh st') n ctx (context e') Hclone).
    apply Hclone.
Qed.

Lemma C9_builder_witness :
  let st := State ∅ 0 (MHeap {[0 := {["k" := AStr "v"]}]} 1) 0 in
  ∃ st' e',
    E 1 st "validation.failed" "validation"
      [WithHTTPStatus 400; WithDetail "payload invalid"; WithContext (Some 0);
       WithHTTPStatus 422]
      = Ok (st', Some 0) ∧
    HTTPStatus st' (Some 0) = Ok 422%Z ∧
    errs st' !! 0 = Some e' ∧
    clone_equal (mh st) (Some 0) (mh st') (context e') ∧
    ∃ st'' r,
      Context 1 (set_mh st' (map_assign (mh st') 0 "k" (AStr "v2"))) (Some 0)
        = Ok (st'', r) ∧
      clone_equal (mh st) (Some 0) (mh st'') r.
Proof.
  intros st.
  destruct (C9_builder_defaults_and_options 1 st "validation.failed" "validation")
    as (_ & _ & _ & Hlast & _ & _ & Hclone).
  destruct (Hclone [WithHTTPStatus 400; WithDetail "payload invalid"] (Some 0)
              [WithHTTPStatus 422])
    as (st' & e' & HE & He' & _ & _ & Heq & _ & _ & Hlater).
  - repeat constructor.
  - split; [simpl; lia|]. exists {["k" := AStr "v"]}. split; [reflexivity|].
    intros k0 r' Hk0. apply lookup_singleton_Some in Hk0 as [_ Hk0]. discriminate Hk0.
  - constructor; [discriminate|constructor].
  - exists st', e'. split; [exact HE|]. split.
    { apply (Hlast [WithHTTPStatus 400; WithDetail "payload invalid"; WithContext (Some 0)]
               (WithHTTPStatus 422) [] st' (Some 0) HE).
      constructor. }
    split; [exact He'|]. split; [exact Heq|].
    apply (Hlater 0 "k" (AStr "v2")). simpl. lia.
Defined.

(** C10: on a non-nil receiver WithContextKV and WithContextMap return the
    receiver and change at most its context field: status, code, key,
    detail and cause of the receiver are as before, no other Error is
    touched, and HTTPStatus(), Code(), Key(), Detail(), Unwrap() and
    Error() answer as before. *)
Theorem C10_with_context_changes_only_context st l e :
  errs st !! l = Some e →
  (∀ k v, ∃ st',
     WithContextKV st (Some l) k v = Ok (st', Some l) ∧
     only_context_changed st st' l ∧ same_answers st st' l) ∧
  (∀ m, ∃ st',
     WithContextMap st (Some l) m = Ok (st', Some l) ∧
     only_context_changed st st' l ∧ same_answers st st' l).
Proof.
  intros He. pose proof (ensure_context_frame st l e He) as Hframe.
  split.
  - intros k v. unfold WithContextKV, deref. rewrite He. simpl.
    destruct (ensure_context st l e) as [st1 a]. simpl in Hframe.
    eexists. split; [done|].
    assert (Hocc : only_context_changed st (set_mh st1 (map_assign (mh st1) a k v)) l)
      by exact Hframe.
    split; [done|]. by apply only_context_changed_same_answers.
  - intros m. unfold WithContextMap, deref. case_decide.
    + exists st. split; [done|].
      assert (Hocc : only_context_changed st st l).
      { split; [by exists e, e|done]. }
      split; [done|]. by apply only_context_changed_same_answers.
    + rewrite He. simpl. destruct (ensure_context st l e) as [st1 a]. simpl in Hframe.
      eexists. split; [done|].
      assert (Hocc : only_context_changed st
                (set_mh st1 (assign_all (mh st1) a (entries (mh st) m))) l)
        by exact Hframe.
      split; [done|]. by apply only_context_changed_same_answers.
Qed.

Lemma C10_with_context_witness :
  ∃ st',
    WithContextKV not_found_state (Some 0) "customer_id" (AStr "42") = Ok (st', Some 0) ∧
    only_context_changed not_found_state st' 0 ∧ same_answers not_found_state st' 0.
Proof.
  destruct (C10_with_context_changes_only_context not_found_state 0 not_found_Error)
    as [HKV _]; [reflexivity|].
  apply HKV.
Defined.

End Claims.

(** * Further properties of the package *)

Section FurtherLemmas.

Implicit Types (st : state) (p : option nat) (e : Error) (h : mheap)
  (r : option nat) (P Q : nat → Prop) (fuel d n l : nat).

Lemma denote_norm_not_val n h r v : denote_norm n h r ≠ TVal v.
Proof.
  destruct n, r as [a|]; simpl; try done;
    destruct (cells h !! a); try done; by case_decide.
Qed.

Lemma within_children P d h a m k r :
  within P d h (Some a) → cells h !! a = Some m → m !! k = Some (AMap r) →
  within P d h r.
Proof.
  destruct d as [|d]; [done|]. intros (_ & m' & Hm' & Hsub) Hm Hk.
  rewrite Hm in Hm'. injection Hm' as <-.
  apply (within_depth_mono _ d); [lia|]. by eapply Hsub.
Qed.

Lemma within_inside P d h r x : within P d h r → inside h x r → P x.
Proof.
  intros Hw Hin. revert d Hw.
  induction Hin as [|a m k r Ha Hk Hin IH]; intros d Hw.
  - by eapply within_Some.
  - eapply IH, within_children; done.
Qed.

(** The entries of a map that reads as the normalised form of another. *)
Lemma clone_entrywise h h' a b m :
  cells h !! a = Some m → m ≠ ∅ →
  (∀ n, denote n h' (Some b) = denote_norm n h (Some a)) →
  ∃ mb, cells h' !! b = Some mb ∧ mb ≠ ∅ ∧
    ∀ k, match m !! k with
         | None => mb !! k = None
         | Some (AMap r) =>
           ∃ c, mb !! k = Some (AMap c) ∧ ∀ n, denote n h' c = denote_norm n h r
         | Some u => mb !! k = Some u
         end.
Proof.
  intros Ha Hm H.
  destruct (cells h' !! b) as [mb|] eqn:Hb.
  2:{ specialize (H 1). simpl in H. rewrite Hb, Ha in H. by case_decide. }
  assert (Hkey : ∀ j k, denote_any j h' <$> mb !! k = denote_norm_any j h <$> m !! k).
  { intros j k. specialize (H (S j)).
    rewrite (denote_cell _ _ _ _ Hb), (denote_norm_cell _ _ _ _ Ha Hm) in H.
    injection H as H. apply (f_equal (fun x => x !! k)) in H.
    by rewrite !lookup_fmap in H. }
  exists mb. split; [done|]. split.
  { intros ->. apply Hm. apply map_eq. intros k. specialize (Hkey 0 k).
    rewrite lookup_empty in *. by destruct (m !! k). }
  intros k. pose proof (fun j => Hkey j k) as Hk. clear Hkey.
  destruct (m !! k) as [v|], (mb !! k) as [w|]; try by specialize (Hk 0).
  assert (Hv : ∀ j, denote_any j h' w = denote_norm_any j h v).
  { intros j. specialize (Hk j). simpl in Hk. by injection Hk. }
  destruct v as [z|s|x|r], w as [z'|s'|x'|c];
    try (specialize (Hv 0); simpl in Hv; congruence);
    try (by destruct (denote_not_val 0 h' c _ (Hv 0)));
    try (by destruct (denote_norm_not_val 0 h r _ (eq_sym (Hv 0)))).
  by exists c.
Qed.

(** What [Context()] returns for a stored context with entries. *)
Lemma Context_entrywise fuel d st l e a m :
  errs st !! l = Some e → context e = Some a →
  cells (mh st) !! a = Some m → m ≠ ∅ →
  valid_map d (mh st) (Some a) → d ≤ fuel →
  ∃ h' b mb,
    Context fuel st (Some l) = Ok (set_mh st h', Some b) ∧
    clone_post (mh st) (Some a) fuel (h', Some b) ∧
    cells h' !! b = Some mb ∧ mb ≠ ∅ ∧
    ∀ k, entry_cloned (mh st) h' (next (mh st)) (m !! k) (mb !! k).
Proof.
  intros He Hctx Ha Hm Hv Hle.
  destruct (Context_spec fuel d st l e) as (h' & r & HC & Hpost); [done|by rewrite Hctx|done|].
  rewrite Hctx in Hpost. pose proof Hpost as (_ & _ & Hw & Hd & _).
  simpl in Hw, Hd.
  destruct r as [b|].
  2:{ specialize (Hd 1). rewrite (denote_norm_cell _ _ _ _ Ha Hm) in Hd. discriminate Hd. }
  destruct (clone_entrywise _ _ _ _ _ Ha Hm Hd) as (mb & Hb & Hne & Hent).
  exists h', b, mb. split; [done|]. split; [done|]. split; [done|]. split; [done|].
  intros k. specialize (Hent k). unfold entry_cloned.
  destruct (m !! k) as [[z|s|x|r]|]; try done.
  destruct Hent as (c & Hk & Hc). exists c. repeat split; try done.
  intros x Hin.
  assert (Hwc : within (fun y => next (mh st) ≤ y < next h') fuel h' c)
    by (by eapply within_children).
  by destruct (within_inside _ _ _ _ _ Hwc Hin).
Qed.

(** A map whose entries are all non-map values is valid at depth 1. *)
Lemma valid_map_flat h a m :
  a < next h → cells h !! a = Some m →
  (∀ k v, m !! k = Some v → is_scalar v) → valid_map 1 h (Some a).
Proof.
  intros Ha Hm Hflat. split; [done|]. exists m. split; [done|].
  intros k r Hk. by destruct (Hflat k _ Hk).
Qed.

Lemma singleton_flat (k : string) (v : any) :
  is_scalar v → ∀ k' v', ({[k := v]} : gmap string any) !! k' = Some v' → is_scalar v'.
Proof. intros Hv k' v' Hk'. by apply lookup_singleton_Some in Hk' as [_ <-]. Qed.

(** Writing a non-map value into a cell adds no nested map: what was
    valid stays valid, also for maps that contain the cell. *)
Lemma within_scalar_assign P d h a k v r :
  is_scalar v → within P d h r → within P d (map_assign h a k v) r.
Proof.
  intros Hv. revert r. induction d as [|d IH]; intros [x|]; simpl; try done.
  intros (Hx & m & Hm & Hsub). split; [done|].
  destruct (decide (a = x)) as [->|Hne].
  - exists (<[k := v]> m). split; [by rewrite lookup_alter_eq, Hm|].
    intros k' r' Hk'. apply lookup_insert_Some in Hk' as [[_ ->]|[_ Hk']]; [done|].
    apply IH. by eapply Hsub.
  - exists m. split; [by rewrite lookup_alter_ne|].
    intros k' r' Hk'. apply IH. by eapply Hsub.
Qed.

(** A map of finite nesting depth is not nested in itself. *)
Lemma within_of_inside P d h r x :
  within P d h r → inside h x r → within P d h (Some x).
Proof.
  intros Hw Hin. revert d Hw.
  induction Hin as [|a m k r Ha Hk Hin IH]; intros d Hw; [done|].
  eapply IH, within_children; done.
Qed.

Lemma not_inside_own_child P d h a m k r :
  within P d h (Some a) → cells h !! a = Some m → m !! k = Some (AMap r) →
  ¬ inside h a r.
Proof.
  revert a m k r. induction d as [|d IH]; intros a m k r Hw Ha Hk Hin; [done|].
  apply (IH a m k r); try done.
  destruct Hw as (_ & m' & Hm' & Hsub). rewrite Ha in Hm'. injection Hm' as <-.
  eapply within_of_inside; [|exact Hin]. by eapply Hsub.
Qed.

Lemma within_and P Q d h r :
  within P d h r → (∀ x, inside h x r → Q x) →
  within (fun x => P x ∧ Q x) d h r.
Proof.
  revert r. induction d as [|d IH]; intros [a|]; simpl; try done.
  intros (Ha & m & Hm & Hsub) HQ. split; [split; [done|apply HQ; constructor]|].
  exists m. split; [done|]. intros k r Hk. apply IH; [by eapply Hsub|].
  intros x Hin. apply HQ. by eapply inside_child.
Qed.

Lemma within_children_avoid P d h a m k r :
  within P d h (Some a) → cells h !! a = Some m → m !! k = Some (AMap r) →
  within (fun x => P x ∧ x ≠ a) d h r.
Proof.
  intros Hw Ha Hk. apply within_and; [by eapply within_children|].
  intros x Hin ->. by eapply not_inside_own_child.
Qed.

(** What [WithContextKV] does to the store on a non-nil receiver. *)
Lemma WithContextKV_effect st l e k v :
  errs st !! l = Some e →
  (∀ a, context e = Some a → is_Some (cells (mh st) !! a)) →
  ∃ st1 a1,
    WithContextKV st (Some l) k v = Ok (st1, Some l) ∧
    errs st1 !! l = Some (with_context e (Some a1)) ∧
    (∀ q, q ≠ l → errs st1 !! q = errs st !! q) ∧
    next_err st1 = next_err st ∧ next_id st1 = next_id st ∧
    a1 = match context e with Some a => a | None => next (mh st) end ∧
    next (mh st1) =
      match context e with Some _ => next (mh st) | None => S (next (mh st)) end ∧
    cells (mh st1) !! a1 = Some (<[k := v]> (content (mh st) (context e))) ∧
    preserves (fun x => x ≠ a1) (mh st) (mh st1) ∧
    mh st1 =
      map_assign (match context e with
                  | Some _ => mh st
                  | None => (make_map (mh st)).1
                  end) a1 k v.
Proof.
  intros He Hcell. unfold WithContextKV, deref, ensure_context. rewrite He. simpl.
  destruct (context e) as [a|] eqn:Hctx; simpl.
  - destruct (Hcell a eq_refl) as [m Hm].
    eexists _, a. split; [done|]. simpl. rewrite He.
    split; [by destruct e; simpl in *; subst|]. do 5 (split; [done|]).
    split; [by rewrite lookup_alter_eq, Hm|]. split; [|done].
    intros x Hx. simpl. by rewrite lookup_alter_ne.
  - eexists _, (next (mh st)). split; [done|]. simpl.
    split; [apply lookup_insert_eq|].
    split; [intros q Hq; by rewrite lookup_insert_ne|]. do 4 (split; [done|]).
    split; [by rewrite lookup_alter_eq, lookup_insert_eq|]. split; [|done].
    intros x Hx. simpl. rewrite lookup_alter_ne by done. by rewrite lookup_insert_ne.
Qed.

Lemma valid_context_cell d h r :
  valid_map d h r → ∀ a, r = Some a → is_Some (cells h !! a).
Proof.
  intros Hv a ->. destruct d as [|d]; [done|].
  destruct Hv as (_ & m & Hm & _). by exists m.
Qed.

(** The loop of [WithContextMap] on an existing cell. *)
Lemma assign_all_cell (l : list (string * any)) h a (acc : gmap string any) :
  cells h !! a = Some acc →
  cells (assign_all h a l) !! a =
    Some (fold_left (fun (m : gmap string any) kv => <[kv.1 := kv.2]> m) l acc) ∧
  next (assign_all h a l) = next h ∧
  preserves (fun x => x ≠ a) h (assign_all h a l).
Proof.
  revert h acc. induction l as [|[k v] l IH]; intros h acc Hacc; simpl.
  { split; [done|]. split; [done|apply preserves_refl]. }
  destruct (IH (map_assign h a k v) (<[k := v]> acc)) as (Hcell & Hnext & Hp).
  { simpl. by rewrite lookup_alter_eq, Hacc. }
  split; [exact Hcell|]. split; [exact Hnext|].
  eapply preserves_trans; [apply preserves_map_assign|exact Hp].
Qed.

Lemma fold_insert_union (l : list (string * any)) (acc : gmap string any) :
  NoDup l.*1 →
  fold_left (fun (m : gmap string any) kv => <[kv.1 := kv.2]> m) l acc
    = list_to_map l ∪ acc.
Proof.
  revert acc. induction l as [|[k v] l IH]; intros acc Hnd; simpl.
  { by rewrite (left_id_L ∅ (∪)). }
  apply NoDup_cons in Hnd as [Hk Hnd]. rewrite IH by done.
  rewrite <- insert_union_l. rewrite insert_union_r; [done|].
  by apply not_elem_of_list_to_map_1.
Qed.

Lemma len_zero_entries h m : len h m = 0 → entries h m = [].
Proof.
  destruct m as [a|]; simpl; [|done]. destruct (cells h !! a) as [c|]; [|done].
  intros Hsz. apply map_size_empty_iff in Hsz. subst c. apply map_to_list_empty.
Qed.

Lemma len_nonzero_cell h m :
  len h m ≠ 0 → ∃ a c, m = Some a ∧ cells h !! a = Some c ∧ c ≠ ∅.
Proof.
  destruct m as [a|]; simpl; [|done].
  destruct (cells h !! a) as [c|] eqn:Ha; [|done].
  intros Hsz. exists a, c. split; [done|]. split; [done|].
  intros Hc. apply Hsz. by rewrite Hc, map_size_empty.
Qed.

(** What [WithContextMap] does to the store for a map with entries. *)
Lemma WithContextMap_effect st l e am cm :
  errs st !! l = Some e →
  (∀ a, context e = Some a → is_Some (cells (mh st) !! a)) →
  cells (mh st) !! am = Some cm → cm ≠ ∅ →
  ∃ st1 a1,
    WithContextMap st (Some l) (Some am) = Ok (st1, Some l) ∧
    errs st1 !! l = Some (with_context e (Some a1)) ∧
    (∀ q, q ≠ l → errs st1 !! q = errs st !! q) ∧
    next_err st1 = next_err st ∧ next_id st1 = next_id st ∧
    a1 = match context e with Some a => a | None => next (mh st) end ∧
    next (mh st1) =
      match context e with Some _ => next (mh st) | None => S (next (mh st)) end ∧
    cells (mh st1) !! a1 = Some (cm ∪ content (mh st) (context e)) ∧
    preserves (fun x => x ≠ a1) (mh st) (mh st1).
Proof.
  intros He Hcell Ham Hcm. unfold WithContextMap, deref.
  assert (Hlen : len (mh st) (Some am) ≠ 0).
  { simpl. rewrite Ham. intros Hsz. by apply map_size_empty_iff in Hsz. }
  case_decide; [done|]. rewrite He. simpl. rewrite Ham.
  unfold ensure_context.
  destruct (context e) as [a|] eqn:Hctx; simpl.
  - destruct (Hcell a eq_refl) as [m Hm].
    destruct (assign_all_cell (map_to_list cm) (mh st) a m Hm) as (Hc & Hn & Hp).
    eexists _, a. split; [done|]. simpl. rewrite He.
    split; [by destruct e; simpl in *; subst|]. do 4 (split; [done|]).
    split; [done|]. split; [|done].
    rewrite Hc, Hm, fold_insert_union by apply NoDup_fst_map_to_list.
    by rewrite list_to_map_to_list.
  - set (h0 := MHeap (<[next (mh st) := ∅]> (cells (mh st))) (S (next (mh st)))).
    destruct (assign_all_cell (map_to_list cm) h0 (next (mh st)) ∅) as (Hc & Hn & Hp).
    { simpl. apply lookup_insert_eq. }
    eexists _, (next (mh st)). split; [done|]. simpl.
    split; [apply lookup_insert_eq|].
    split; [intros q Hq; by rewrite lookup_insert_ne|]. do 3 (split; [done|]).
    split; [done|]. split.
    + rewrite Hc, fold_insert_union by apply NoDup_fst_map_to_list.
      by rewrite list_to_map_to_list.
    + intros x Hx. rewrite Hp by done. simpl. by rewrite lookup_insert_ne.
Qed.

(** Repeated [WithContextKV] calls on a receiver that has a context. *)
Lemma WithContextKV_all_existing (kvs : list (string * any)) st l e a :
  errs st !! l = Some e → context e = Some a →
  WithContextKV_all st (Some l) kvs
    = Ok (set_mh st (assign_all (mh st) a kvs), Some l).
Proof.
  revert st. induction kvs as [|[k v] kvs IH]; intros st He Hctx; simpl.
  { by rewrite set_mh_id. }
  unfold WithContextKV, deref, ensure_context. rewrite He. simpl. rewrite Hctx. simpl.
  by rewrite (IH (set_mh st (map_assign (mh st) a k v)) He Hctx).
Qed.

Lemma WithContextKV_all_nil_receiver (kvs : list (string * any)) st :
  WithContextKV_all st None kvs = Ok (st, None).
Proof. induction kvs as [|[k v] kvs IH]; simpl; done. Qed.

Lemma map_assign_twice h a k v1 v2 :
  map_assign (map_assign h a k v1) a k v2 = map_assign h a k v2.
Proof.
  unfold map_assign. simpl. f_equal. apply map_eq. intros x.
  destruct (decide (a = x)) as [->|Hne].
  - rewrite !lookup_alter_eq. destruct (cells h !! x); simpl; [|done].
    by rewrite insert_insert_eq.
  - by rewrite !lookup_alter_ne.
Qed.

Lemma map_assign_swap h a k1 k2 v1 v2 :
  k1 ≠ k2 →
  map_assign (map_assign h a k1 v1) a k2 v2 = map_assign (map_assign h a k2 v2) a k1 v1.
Proof.
  intros Hk. unfold map_assign. simpl. f_equal. apply map_eq. intros x.
  destruct (decide (a = x)) as [->|Hne].
  - rewrite !lookup_alter_eq. destruct (cells h !! x); simpl; [|done].
    f_equal. by apply insert_insert_ne.
  - by rewrite !lookup_alter_ne.
Qed.

(** Two [WithContextKV] calls in a row. *)
Lemma WithContextKV_twice st l k1 v1 k2 v2 :
  ('(st1, p1) ← WithContextKV st (Some l) k1 v1; WithContextKV st1 p1 k2 v2) =
  match errs st !! l with
  | None => Stuck
  | Some e =>
    let '(st0, a) := ensure_context st l e in
    Ok (set_mh st0 (map_assign (map_assign (mh st0) a k1 v1) a k2 v2), Some l)
  end.
Proof.
  destruct (errs st !! l) as [e|] eqn:He.
  - assert (H1 : WithContextKV st (Some l) k1 v1 =
              let '(st0, a) := ensure_context st l e in
              Ok (set_mh st0 (map_assign (mh st0) a k1 v1), Some l)).
    { unfold WithContextKV, deref. by rewrite He. }
    rewrite H1. unfold ensure_context.
    destruct (context e) as [a|] eqn:Hctx; simpl;
      unfold WithContextKV, deref, ensure_context; simpl.
    + rewrite He. simpl. by rewrite ?Hctx.
    + by rewrite lookup_insert_eq.
  - assert (H1 : WithContextKV st (Some l) k1 v1 = Stuck).
    { unfold WithContextKV, deref. by rewrite He. }
    by rewrite H1.
Qed.

(** Two options that assign different attributes, applied in a row. *)
Lemma apply_option_swap fuel st p o1 o2 :
  attr_of o1 ≠ attr_of o2 →
  (st1 ← apply_option fuel st p o1; apply_option fuel st1 p o2) =
  (st1 ← apply_option fuel st p o2; apply_option fuel st1 p o1).
Proof.
  intros Hattr. destruct p as [l|]; [|done].
  unfold apply_option, deref. destruct (errs st !! l) as [e|] eqn:He; [|done].
  destruct o1 as [s1|d1|c1|x1], o2 as [s2|d2|c2|x2]; try done; simpl;
    try destruct (cloneMap fuel (mh st) c1) as [[h r]| |]; simpl;
    try destruct (cloneMap fuel (mh st) c2) as [[h r]| |]; simpl;
    rewrite ?lookup_insert_eq; simpl; try done;
    unfold set_err, set_mh; simpl; by rewrite !insert_insert_eq.
Qed.

(** A map that reads as the normalised form of another has entries. *)
Lemma clone_result_nonempty h h' r b mb :
  (∀ j, denote j h' (Some b) = denote_norm j h r) →
  cells h' !! b = Some mb → mb ≠ ∅.
Proof.
  intros H Hb ->. specialize (H 1). rewrite (denote_cell _ _ _ _ Hb), fmap_empty in H.
  symmetry in H. by apply denote_norm_TMap_nonempty in H.
Qed.

(** One step of the store that keeps [contexts_nonempty]: the allocator
    moves forward, cells with entries keep having entries, and an Error
    that is new or changed has a context with entries or none. *)
Lemma contexts_nonempty_step st st' :
  contexts_nonempty st →
  next (mh st) ≤ next (mh st') →
  (∀ a m, a < next (mh st) → cells (mh st) !! a = Some m → m ≠ ∅ →
     ∃ m', cells (mh st') !! a = Some m' ∧ m' ≠ ∅) →
  (∀ l e, errs st' !! l = Some e →
     errs st !! l = Some e ∨
     ∀ a, context e = Some a →
       a < next (mh st') ∧ ∃ m, cells (mh st') !! a = Some m ∧ m ≠ ∅) →
  contexts_nonempty st'.
Proof.
  intros Hinv Hnext Hcells Herrs l e a He Hctx.
  destruct (Herrs l e He) as [Hold|Hnew]; [|by apply Hnew].
  destruct (Hinv l e a Hold Hctx) as (Ha & m & Hm & Hne).
  split; [lia|]. by eapply Hcells.
Qed.

(** Storing the result of [cloneMap] as the context of the Error at [l]. *)
Lemma contexts_nonempty_clone st st' l e' ctx fuel h' r :
  contexts_nonempty st →
  clone_post (mh st) ctx fuel (h', r) →
  errs st' = <[l := e']> (errs st) → context e' = r → mh st' = h' →
  contexts_nonempty st'.
Proof.
  intros Hinv (Hle & Hp & Hw & Hd & _) Herrs Hctx Hmh. simpl in *.
  apply (contexts_nonempty_step st); [done|by rewrite Hmh| |].
  - intros a m Ha Hm Hne. exists m. split; [|done]. by rewrite Hmh, Hp.
  - intros l' e0 He0. rewrite Herrs in He0.
    destruct (decide (l = l')) as [->|Hne]; [|left; by rewrite lookup_insert_ne in He0].
    rewrite lookup_insert_eq in He0. injection He0 as <-. right.
    intros a Ha. subst r. rewrite Ha in Hw, Hd. rewrite Hmh.
    pose proof (within_Some _ _ _ _ Hw) as Hb. simpl in Hb. split; [lia|].
    destruct fuel as [|f]; [done|]. destruct Hw as (_ & m & Hm & _).
    exists m. split; [done|]. by eapply clone_result_nonempty.
Qed.

(** Replacing the Error at [l] by one with the same context, or none. *)
Lemma contexts_nonempty_update st st' l e' :
  contexts_nonempty st →
  (context e' = None ∨ ∃ e, errs st !! l = Some e ∧ context e' = context e) →
  errs st' = <[l := e']> (errs st) → mh st' = mh st →
  contexts_nonempty st'.
Proof.
  intros Hinv Hctx Herrs Hmh.
  apply (contexts_nonempty_step st); [done|by rewrite Hmh| |].
  - intros a m Ha Hm Hne. exists m. by rewrite Hmh.
  - intros l' e0 He0. rewrite Herrs in He0.
    destruct (decide (l = l')) as [->|Hne]; [|left; by rewrite lookup_insert_ne in He0].
    rewrite lookup_insert_eq in He0. injection He0 as <-. right.
    intros a Ha. rewrite Hmh.
    destruct Hctx as [Hnone|(e & He & Hsame)]; [congruence|].
    rewrite Hsame in Ha. by apply (Hinv l' e a).
Qed.

Lemma apply_option_contexts_nonempty fuel st l o st' :
  contexts_nonempty st → option_ok fuel (mh st) o →
  apply_option fuel st (Some l) o = Ok st' →
  contexts_nonempty st' ∧ next (mh st) ≤ next (mh st') ∧
  preserves (fun x => x < next (mh st)) (mh st) (mh st') ∧
  is_Some (errs st' !! l).
Proof.
  intros Hinv Hok Hap.
  destruct (apply_option_inv _ _ _ _ _ Hap) as (e & e' & He & Heff & Hst').
  assert (Hsome : is_Some (errs st' !! l)).
  { rewrite Hst'. simpl. rewrite lookup_insert_eq. by eexists. }
  destruct o as [s|dt|ctx|x]; simpl in Heff, Hok.
  1,2,4: destruct Heff as [-> Hmh]; rewrite Hmh;
    (split; [|split; [done|split; [apply preserves_refl|done]]]);
    (eapply (contexts_nonempty_update st st' l); [done| |by rewrite Hst'|done]);
    right; by exists e.
  destruct Heff as (r & Hc & ->).
  destruct (cloneMap_spec fuel (mh st) ctx Hok) as ([h2 r2] & Hc2 & Hpost).
  rewrite Hc in Hc2. injection Hc2 as <- <-.
  pose proof Hpost as (Hle & Hp & _). simpl in Hle, Hp.
  split; [|done].
  eapply (contexts_nonempty_clone st st' l); [done|exact Hpost|by rewrite Hst'|done..].
Qed.

Lemma apply_options_contexts_nonempty fuel l opts :
  ∀ st st', contexts_nonempty st → Forall (option_ok fuel (mh st)) opts →
    apply_options fuel st (Some l) opts = Ok st' → contexts_nonempty st'.
Proof.
  induction opts as [|o opts IH]; intros st st' Hinv Hall Hrun; simpl in Hrun.
  { by injection Hrun as <-. }
  apply Forall_cons in Hall as [Ho Hall].
  destruct (apply_option fuel st (Some l) o) as [st1| |] eqn:Hap; try done.
  simpl in Hrun.
  destruct (apply_option_contexts_nonempty _ _ _ _ _ Hinv Ho Hap) as (Hinv1 & Hle & Hp & _).
  apply (IH st1 st'); [done| |done].
  eapply Forall_impl; [exact Hall|]. intros o'. by apply option_ok_frame.
Qed.

Lemma contexts_nonempty_cell st l e :
  contexts_nonempty st → errs st !! l = Some e →
  ∀ a, context e = Some a → is_Some (cells (mh st) !! a).
Proof. intros Hinv He a Ha. destruct (Hinv l e a He Ha) as (_ & m & Hm & _). by exists m. Qed.

Lemma WithContextKV_contexts_nonempty st p k v st' p' :
  contexts_nonempty st → WithContextKV st p k v = Ok (st', p') →
  contexts_nonempty st'.
Proof.
  intros Hinv HKV. destruct p as [l|]; [|by injection HKV as <- <-].
  destruct (errs st !! l) as [e|] eqn:He.
  2:{ unfold WithContextKV, deref in HKV. by rewrite He in HKV. }
  destruct (WithContextKV_effect st l e k v He (contexts_nonempty_cell _ _ _ Hinv He))
    as (st1 & a1 & HKV1 & He1 & Hq & _ & _ & Ha1 & Hnext & Hc1 & Hp & _).
  rewrite HKV1 in HKV. injection HKV as <- <-.
  assert (Ha1lt : a1 < next (mh st1)).
  { rewrite Hnext, Ha1. destruct (context e) as [a|] eqn:Hctx; [|lia].
    by destruct (Hinv l e a He Hctx). }
  apply (contexts_nonempty_step st); [done| | |].
  - rewrite Hnext. destruct (context e); lia.
  - intros a m Ha Hm Hne. destruct (decide (a = a1)) as [->|Hna].
    + eexists. split; [exact Hc1|apply insert_non_empty].
    + exists m. by rewrite Hp.
  - intros l' e0 He0. destruct (decide (l' = l)) as [->|Hne]; [|left; by rewrite <- Hq].
    right. rewrite He1 in He0. injection He0 as <-. simpl. intros a [= <-].
    split; [done|]. eexists. split; [exact Hc1|apply insert_non_empty].
Qed.

Lemma WithContextMap_contexts_nonempty st p m st' p' :
  contexts_nonempty st → WithContextMap st p m = Ok (st', p') →
  contexts_nonempty st'.
Proof.
  intros Hinv HM. destruct p as [l|]; [|by injection HM as <- <-].
  destruct (decide (len (mh st) m = 0)) as [Hlen|Hlen].
  { unfold WithContextMap in HM. case_decide; [|done]. by injection HM as <- <-. }
  destruct (len_nonzero_cell _ _ Hlen) as (am & cm & -> & Ham & Hcm).
  destruct (errs st !! l) as [e|] eqn:He.
  2:{ unfold WithContextMap, deref in HM. case_decide; [done|]. by rewrite He in HM. }
  destruct (WithContextMap_effect st l e am cm He (contexts_nonempty_cell _ _ _ Hinv He) Ham Hcm)
    as (st1 & a1 & HM1 & He1 & Hq & _ & _ & Ha1 & Hnext & Hc1 & Hp).
  rewrite HM1 in HM. injection HM as <- <-.
  assert (Hne1 : cm ∪ content (mh st) (context e) ≠ ∅).
  { intros Hu. by apply map_positive_l in Hu. }
  assert (Ha1lt : a1 < next (mh st1)).
  { rewrite Hnext, Ha1. destruct (context e) as [a|] eqn:Hctx; [|lia].
    by destruct (Hinv l e a He Hctx). }
  apply (contexts_nonempty_step st); [done| | |].
  - rewrite Hnext. destruct (context e); lia.
  - intros a m Ha Hm Hne. destruct (decide (a = a1)) as [->|Hna].
    + eexists. split; [exact Hc1|done].
    + exists m. by rewrite Hp.
  - intros l' e0 He0. destruct (decide (l' = l)) as [->|Hne]; [|left; by rewrite <- Hq].
    right. rewrite He1 in He0. injection He0 as <-. simpl. intros a [= <-].
    split; [done|]. eexists. split; [exact Hc1|done].
Qed.

Lemma causes_ok_same_errs st st' :
  errs st' = errs st → causes_ok st → causes_ok st'.
Proof.
  intros Herrs Hok l e He. rewrite Herrs in He.
  eapply ptrs_below_mono; [|by apply Hok]. intros q. by rewrite Herrs.
Qed.

Lemma causes_ok_only_context st st' l :
  causes_ok st → only_context_changed st st' l → causes_ok st'.
Proof.
  intros Hok [(e & e' & He & He' & _ & _ & _ & _ & Hc) Hother].
  assert (Hsub : ∀ q, is_Some (errs st !! q) → is_Some (errs st' !! q)).
  { intros q Hq. destruct (decide (q = l)) as [->|Hne]; [by eexists|].
    by rewrite Hother. }
  intros l' e0 He0. destruct (decide (l' = l)) as [->|Hne].
  - rewrite He' in He0. injection He0 as <-. rewrite Hc.
    eapply ptrs_below_mono; [exact Hsub|]. by apply Hok.
  - rewrite Hother in He0 by done.
    eapply ptrs_below_mono; [exact Hsub|]. by apply Hok.
Qed.

Lemma apply_option_causes_ok fuel st l o st' :
  causes_ok st → cause_arg_ok st l o →
  apply_option fuel st (Some l) o = Ok st' →
  causes_ok st' ∧ ∀ q, is_Some (errs st !! q) → is_Some (errs st' !! q).
Proof.
  intros Hok Harg Hap.
  destruct (apply_option_inv _ _ _ _ _ Hap) as (e & e' & He & Heff & Hst').
  split.
  - eapply (causes_ok_insert st st' l e'); [done| |by rewrite Hst'].
    pose proof (Hok l e He) as Hce.
    destruct o as [s|dt|ctx|x]; simpl in Heff, Harg.
    + by destruct Heff as [-> _].
    + by destruct Heff as [-> _].
    + by destruct Heff as (r & _ & ->).
    + by destruct Heff as [-> _].
  - intros q Hq. rewrite Hst'. simpl. destruct (decide (l = q)) as [->|Hne].
    + rewrite lookup_insert_eq. by eexists.
    + by rewrite lookup_insert_ne.
Qed.

Lemma apply_options_causes_ok fuel l opts :
  ∀ st st', causes_ok st → Forall (cause_arg_ok st l) opts →
    apply_options fuel st (Some l) opts = Ok st' → causes_ok st'.
Proof.
  induction opts as [|o opts IH]; intros st st' Hok Hall Hrun; simpl in Hrun.
  { by injection Hrun as <-. }
  apply Forall_cons in Hall as [Ho Hall].
  destruct (apply_option fuel st (Some l) o) as [st1| |] eqn:Hap; try done.
  simpl in Hrun.
  destruct (apply_option_causes_ok _ _ _ _ _ Hok Ho Hap) as [Hok1 Hsub].
  apply (IH st1 st'); [done| |done].
  eapply Forall_impl; [exact Hall|]. intros [s|dt|ctx|x]; simpl; try done.
  by apply ptrs_below_mono.
Qed.

(** [Error()] on an Error older than [l] does not read the Error at [l]. *)
Lemma Error_str_older st st' l :
  causes_ok st → (∀ q, q < l → errs st' !! q = errs st !! q) →
  ∀ f q, q < l → Error_str f st' (Some q) = Error_str f st (Some q).
Proof.
  intros Hok Hsame. induction f as [|f IH]; intros q Hq; simpl; rewrite Hsame by done.
  - done.
  - destruct (errs st !! q) as [e|] eqn:He; [|done].
    pose proof (Hok q e He) as Hc.
    destruct (cause e) as [|[q'|]|i msg|i msg inner]; try done.
    + simpl in Hc. destruct Hc as [Hq' _]. rewrite IH by lia. done.
    + by rewrite !Error_str_nil.
Qed.

Lemma ptrs_below_level st l l' c : l ≤ l' → ptrs_below st l c → ptrs_below st l' c.
Proof.
  intros Hl. induction c as [|[q|]|i msg|i msg inner IH]; simpl; try done.
  intros [Hq Hsome]. split; [lia|done].
Qed.

(** [errors.Is] started at a value that points to older Errors only reads
    those. *)
Lemma errors_is_older st st' l t :
  causes_ok st → (∀ q, q < l → errs st' !! q = errs st !! q) →
  ∀ f x, ptrs_below st l x → errors_is f st' x t = errors_is f st x t.
Proof.
  intros Hok Hsame. induction f as [|f IH]; intros x Hx; simpl;
    destruct (error_eqb x t); try done;
    destruct x as [|[q|]|i m|i m inner]; try done.
  - unfold Unwrap, deref. destruct Hx as [Hq _]. by rewrite Hsame.
  - unfold Unwrap, deref. destruct Hx as [Hq _]. rewrite Hsame by done.
    destruct (errs st !! q) as [e|] eqn:He; simpl; [|done].
    assert (Hc : ptrs_below st l (cause e)).
    { apply (ptrs_below_level st q); [lia|by apply Hok]. }
    destruct (cause e); try done; by apply IH.
  - destruct inner; try done; apply IH; exact Hx.
Qed.

Lemma Error_str_unfold f st l e :
  errs st !! l = Some e →
  Error_str (S f) st (Some l) =
    match cause e with
    | NilError => Ok (head_string e)
    | PtrError q => s ← Error_str f st q; Ok (head_string e ++ ": " ++ s)
    | ErrorString _ msg => Ok (head_string e ++ ": " ++ msg)
    | WrapError _ msg _ => Ok (head_string e ++ ": " ++ msg)
    end.
Proof. intros He. simpl. by rewrite He. Qed.

End FurtherLemmas.

Section Further.

Implicit Types (st : state) (p : option nat) (e : Error) (h : mheap)
  (r : option nat) (fuel d n l : nat).

(** X1: Context() on any Error whose stored context has entries returns a
    new non-nil map with the same keys: under each key a non-map value is
    the stored value itself, and a map value is a map made of new cells
    only that reads as the stored one (empty maps as nil).  No Error and
    no existing map cell is changed by the call. *)
Theorem X1_Context_returns_entrywise_clone fuel d st l e a m :
  errs st !! l = Some e → context e = Some a →
  cells (mh st) !! a = Some m → m ≠ ∅ →
  valid_map d (mh st) (Some a) → d ≤ fuel →
  ∃ st' b mb,
    Context fuel st (Some l) = Ok (st', Some b) ∧
    errs st' = errs st ∧ next_err st' = next_err st ∧ next_id st' = next_id st ∧
    preserves (fun x => x < next (mh st)) (mh st) (mh st') ∧
    next (mh st) ≤ b ∧
    cells (mh st') !! b = Some mb ∧ mb ≠ ∅ ∧
    ∀ k, entry_cloned (mh st) (mh st') (next (mh st)) (m !! k) (mb !! k).
Proof.
  intros He Hctx Ha Hm Hv Hle.
  destruct (Context_entrywise fuel d st l e a m) as
    (h' & b & mb & HC & (_ & Hp & Hw & _) & Hb & Hne & Hent); [done..|].
  simpl in Hp, Hw. exists (set_mh st h'), b, mb.
  split; [done|]. do 4 (split; [done|]).
  split; [by destruct (within_Some _ _ _ _ Hw)|]. by repeat (split; [done|]).
Qed.

Lemma X1_Context_witness :
  let h := MHeap (<[0 := {["id" := AStr "42"; "f" := AMap (Some 1)]}]>
                  (<[1 := {["rule" := AStr "uuid"]}]> ∅)) 2 in
  let e := mkError 400 "c" "k" "d" (Some 0) NilError in
  let st := State {[0 := e]} 1 h 0 in
  ∃ st' b mb,
    Context 2 st (Some 0) = Ok (st', Some b) ∧
    cells (mh st') !! b = Some mb ∧ mb !! "id" = Some (AStr "42") ∧ 2 ≤ b.
Proof.
  intros h e st.
  destruct (X1_Context_returns_entrywise_clone 2 2 st 0 e 0
              {["id" := AStr "42"; "f" := AMap (Some 1)]})
    as (st' & b & mb & HC & _ & _ & _ & _ & Hfresh & Hb & _ & Hent).
  - reflexivity.
  - reflexivity.
  - reflexivity.
  - intros Hemp. apply (f_equal (fun x : gmap string any => x !! "id")) in Hemp.
    vm_compute in Hemp. discriminate Hemp.
  - split; [simpl; lia|].
    exists {["id" := AStr "42"; "f" := AMap (Some 1)]}. split; [reflexivity|].
    intros k r Hk. apply lookup_insert_Some in Hk as [[_ Hk]|[_ Hk]]; [discriminate Hk|].
    apply lookup_singleton_Some in Hk as [_ Hk]. injection Hk as <-.
    split; [simpl; lia|]. exists {["rule" := AStr "uuid"]}. split; [reflexivity|].
    intros k' r' Hk'. apply lookup_singleton_Some in Hk' as [_ Hk']. discriminate Hk'.
  - lia.
  - exists st', b, mb. split; [exact HC|]. split; [exact Hb|].
    split; [exact (Hent "id")|exact Hfresh].
Defined.

(** X2: two successive Context() calls return two maps that are
    structurally equal and share no cell at any level of nesting: the
    cells of the first lie in the range allocated by the first call, the
    cells of the second in the range allocated by the second. *)
Theorem X2_Context_calls_do_not_alias fuel d st l e a m :
  errs st !! l = Some e → context e = Some a →
  cells (mh st) !! a = Some m → m ≠ ∅ →
  valid_map d (mh st) (Some a) → d ≤ fuel →
  ∃ st1 b1 st2 b2,
    Context fuel st (Some l) = Ok (st1, Some b1) ∧
    Context fuel st1 (Some l) = Ok (st2, Some b2) ∧
    deep_equal (mh st2) (Some b1) (mh st2) (Some b2) ∧
    (∀ x, inside (mh st2) x (Some b1) → next (mh st) ≤ x < next (mh st1)) ∧
    (∀ x, inside (mh st2) x (Some b2) → next (mh st1) ≤ x < next (mh st2)).
Proof.
  intros He Hctx Ha Hm Hv Hle.
  destruct (Context_entrywise fuel d st l e a m) as
    (h1 & b1 & mb1 & HC1 & (Hle1 & Hp1 & Hw1 & Hd1 & _) & _); [done..|].
  simpl in Hle1, Hp1, Hw1, Hd1.
  pose proof (within_Some _ _ _ _ Hv) as Halo. simpl in Halo.
  assert (Hv1 : valid_map d h1 (Some a)).
  { eapply within_mono; [|eapply within_frame; [exact Hp1|exact Hv]]. simpl. lia. }
  destruct (Context_entrywise fuel d (set_mh st h1) l e a m) as
    (h2 & b2 & mb2 & HC2 & (Hle2 & Hp2 & Hw2 & Hd2 & _) & _); try done.
  { simpl. by rewrite Hp1. }
  simpl in Hle2, Hp2, Hw2, Hd2.
  assert (Hp12 : preserves (fun x => next (mh st) ≤ x < next h1) h1 h2).
  { eapply preserves_weaken; [|exact Hp2]. simpl. lia. }
  exists (set_mh st h1), b1, (set_mh (set_mh st h1) h2), b2.
  split; [done|]. split; [done|]. simpl. split; [|split].
  - intros n. rewrite (denote_frame _ _ _ _ _ _ Hp12 Hw1), Hd1, Hd2.
    symmetry. by eapply denote_norm_frame.
  - intros x Hin.
    apply (within_inside (fun y => next (mh st) ≤ y < next h1) fuel h2 (Some b1) x);
      [|exact Hin].
    eapply within_frame; [exact Hp12|exact Hw1].
  - intros x Hin.
    by apply (within_inside (fun y => next h1 ≤ y < next h2) fuel h2 (Some b2) x).
Qed.

Lemma X2_Context_calls_witness :
  let e := mkError 400 "c" "k" "d" (Some 0) NilError in
  let st := State {[0 := e]} 1 (MHeap {[0 := {["id" := AStr "42"]}]} 1) 0 in
  ∃ st1 b1 st2 b2,
    Context 1 st (Some 0) = Ok (st1, Some b1) ∧
    Context 1 st1 (Some 0) = Ok (st2, Some b2) ∧
    deep_equal (mh st2) (Some b1) (mh st2) (Some b2).
Proof.
  intros e st.
  destruct (X2_Context_calls_do_not_alias 1 1 st 0 e 0 {["id" := AStr "42"]})
    as (st1 & b1 & st2 & b2 & HC1 & HC2 & Heq & _).
  - reflexivity.
  - reflexivity.
  - reflexivity.
  - apply insert_non_empty.
  - apply (valid_map_flat _ _ {["id" := AStr "42"]}); [simpl; lia|reflexivity|].
    by apply singleton_flat.
  - lia.
  - exists st1, b1, st2, b2. split; [exact HC1|]. split; [exact HC2|exact Heq].
Defined.

(** X3: after WithContextKV(k, v) with a non-map value v, Context()
    returns a non-nil map that holds v under k, and under every other key
    what the stored context held before the call (map values as new
    clones). *)
Theorem X3_WithContextKV_then_Context fuel d st l e k v :
  errs st !! l = Some e →
  valid_map d (mh st) (context e) → d ≤ fuel → 1 ≤ fuel →
  is_scalar v →
  ∃ st1 st2 b mb,
    WithContextKV st (Some l) k v = Ok (st1, Some l) ∧
    Context fuel st1 (Some l) = Ok (st2, Some b) ∧
    cells (mh st2) !! b = Some mb ∧
    mb !! k = Some v ∧
    ∀ k', k' ≠ k →
      entry_cloned (mh st1) (mh st2) (next (mh st1))
        (content (mh st) (context e) !! k') (mb !! k').
Proof.
  intros He Hv Hle Hfuel Hsc.
  destruct (WithContextKV_effect st l e k v He (valid_context_cell _ _ _ Hv))
    as (st1 & a1 & HKV & He1 & _ & _ & _ & Ha1 & Hnext & Hcell & Hp & Hst1).
  assert (Hv1 : valid_map (Nat.max d 1) (mh st1) (Some a1)).
  { destruct (context e) as [a|] eqn:Hctx.
    - subst a1. apply (within_depth_mono _ d); [lia|].
      unfold valid_map. rewrite Hnext, Hst1. by apply within_scalar_assign.
    - apply (within_depth_mono _ 1); [lia|].
      eapply valid_map_flat; [lia|exact Hcell|].
      simpl. rewrite insert_empty. by apply singleton_flat. }
  destruct (Context_entrywise fuel (Nat.max d 1) st1 l (with_context e (Some a1)) a1
              (<[k := v]> (content (mh st) (context e))))
    as (h2 & b & mb & HC & _ & Hb & _ & Hent); try done.
  { apply insert_non_empty. }
  { lia. }
  exists st1, (set_mh st1 h2), b, mb. do 3 (split; [done|]). split.
  - specialize (Hent k). rewrite lookup_insert_eq in Hent. by destruct v.
  - intros k' Hk'. specialize (Hent k'). by rewrite lookup_insert_ne in Hent.
Qed.

Lemma X3_WithContextKV_witness :
  let e := mkError 200 "ok" "ok" "ok" None NilError in
  let st := State {[0 := e]} 1 (MHeap ∅ 0) 0 in
  ∃ st1 st2 b mb,
    WithContextKV st (Some 0) "customer_id" (AStr "42") = Ok (st1, Some 0) ∧
    Context 1 st1 (Some 0) = Ok (st2, Some b) ∧
    cells (mh st2) !! b = Some mb ∧
    mb !! "customer_id" = Some (AStr "42").
Proof.
  intros e st.
  destruct (X3_WithContextKV_then_Context 1 0 st 0 e "customer_id" (AStr "42"))
    as (st1 & st2 & b & mb & HKV & HC & Hb & Hk & _).
  - reflexivity.
  - exact I.
  - lia.
  - lia.
  - exact I.
  - exists st1, st2, b, mb. split; [exact HKV|]. split; [exact HC|].
    split; [exact Hb|exact Hk].
Defined.

(** X4: WithContextKV stores a map value as it is given, without cloning
    it: the caller's map becomes an entry of the stored context, and a
    write the caller makes to that map afterwards shows in the map that
    the next Context() call returns. *)
Theorem X4_WithContextKV_stores_map_by_reference fuel d st l e k c mc k2 w :
  errs st !! l = Some e →
  valid_map d (mh st) (context e) →
  cells (mh st) !! c = Some mc →
  within (fun x => x < next (mh st) ∧ Some x ≠ context e) d (mh st) (Some c) →
  S d ≤ fuel → is_scalar w →
  ∃ st1 a1 m1,
    WithContextKV st (Some l) k (AMap (Some c)) = Ok (st1, Some l) ∧
    deref st1 (Some l) = Ok (with_context e (Some a1)) ∧
    cells (mh st1) !! a1 = Some m1 ∧ m1 !! k = Some (AMap (Some c)) ∧
    cells (mh st1) !! c = Some mc ∧
    ∃ st2 b mb bc mbc,
      Context fuel (set_mh st1 (map_assign (mh st1) c k2 w)) (Some l)
        = Ok (st2, Some b) ∧
      cells (mh st2) !! b = Some mb ∧ mb !! k = Some (AMap (Some bc)) ∧
      cells (mh st2) !! bc = Some mbc ∧ mbc !! k2 = Some w.
Proof.
  intros He Hv Hc Hwc Hfuel Hsc.
  destruct (WithContextKV_effect st l e k (AMap (Some c)) He (valid_context_cell _ _ _ Hv))
    as (st1 & a1 & HKV & He1 & _ & _ & _ & Ha1 & Hnext & Hcell & Hp & _).
  set (Pc := fun x => x < next (mh st) ∧ Some x ≠ context e) in *.
  set (old := content (mh st) (context e)) in *.
  set (m1 := <[k := AMap (Some c)]> old) in *.
  assert (HP : ∀ x, Pc x → x ≠ a1 ∧ x < next (mh st1)).
  { intros x [Hx Hne]. rewrite Hnext, Ha1.
    destruct (context e) as [a|]; [|lia]. split; [congruence|lia]. }
  assert (Hca : c ≠ a1) by (apply HP; exact (within_Some _ _ _ _ Hwc)).
  assert (Hc1 : cells (mh st1) !! c = Some mc) by (by rewrite Hp).
  set (h1' := map_assign (mh st1) c k2 w).
  assert (Hmove : ∀ r, within Pc d (mh st) r →
            within (fun x => x < next h1') d h1' r).
  { intros r Hr. eapply within_mono; [|apply within_scalar_assign; [done|];
      eapply within_frame; [|exact Hr]].
    - intros x Hx. simpl. by apply HP.
    - eapply preserves_weaken; [|exact Hp]. intros x Hx. by apply HP. }
  assert (Hv1 : valid_map (S d) h1' (Some a1)).
  { split.
    - simpl. rewrite Hnext, Ha1. destruct (context e) as [a|] eqn:Hctx; [|lia].
      pose proof (within_Some _ _ _ _ Hv) as Ha. simpl in Ha. lia.
    - exists m1. split; [by simpl; rewrite lookup_alter_ne|].
      intros k' r' Hk'. apply lookup_insert_Some in Hk' as [[_ [= <-]]|[_ Hk']].
      + by apply Hmove.
      + apply Hmove. unfold old, content in Hk'.
        destruct (context e) as [a|] eqn:Hctx; [|by rewrite lookup_empty in Hk'].
        destruct (cells (mh st) !! a) as [m|] eqn:Hm;
          [|simpl in Hk'; by rewrite lookup_empty in Hk'].
        simpl in Hk'.
        eapply within_mono; [|by eapply (within_children_avoid _ _ _ a m k' r' Hv)].
        intros x [Hx Hne]. split; [done|congruence]. }
  exists st1, a1, m1. split; [done|]. split; [by unfold deref; rewrite He1|].
  split; [done|]. split; [apply lookup_insert_eq|]. split; [done|].
  destruct (Context_entrywise fuel (S d) (set_mh st1 h1') l
              (with_context e (Some a1)) a1 m1)
    as (h2 & b & mb & HC & _ & Hb & _ & Hent); try done.
  { simpl. by rewrite lookup_alter_ne. }
  { apply insert_non_empty. }
  specialize (Hent k). simpl in Hent. unfold m1 in Hent at 1.
  rewrite lookup_insert_eq in Hent. destruct Hent as (c' & Hk & Hclone & _).
  assert (Hc1' : cells h1' !! c = Some (<[k2 := w]> mc))
    by (by simpl; rewrite lookup_alter_eq, Hc1).
  destruct c' as [bc|].
  2:{ specialize (Hclone 1).
      rewrite (denote_norm_cell _ _ _ _ Hc1' (insert_non_empty _ _ _)) in Hclone.
      discriminate Hclone. }
  destruct (clone_entrywise h1' h2 c bc _ Hc1' (insert_non_empty _ _ _) Hclone)
    as (mbc & Hbc & _ & Hentc).
  specialize (Hentc k2). rewrite lookup_insert_eq in Hentc.
  exists (set_mh (set_mh st1 h1') h2), b, mb, bc, mbc.
  split; [done|]. split; [done|]. split; [done|]. split; [done|]. by destruct w.
Qed.

Lemma X4_store_by_reference_witness :
  let e := mkError 200 "ok" "ok" "ok" None NilError in
  let st := State {[0 := e]} 1 (MHeap {[0 := {["p" := AInt 1]}]} 1) 0 in
  ∃ st1 a1 m1,
    WithContextKV st (Some 0) "m" (AMap (Some 0)) = Ok (st1, Some 0) ∧
    cells (mh st1) !! a1 = Some m1 ∧ m1 !! "m" = Some (AMap (Some 0)) ∧
    ∃ st2 b mb bc mbc,
      Context 2 (set_mh st1 (map_assign (mh st1) 0 "q" (AInt 2))) (Some 0)
        = Ok (st2, Some b) ∧
      cells (mh st2) !! b = Some mb ∧ mb !! "m" = Some (AMap (Some bc)) ∧
      cells (mh st2) !! bc = Some mbc ∧ mbc !! "q" = Some (AInt 2).
Proof.
  intros e st.
  destruct (X4_WithContextKV_stores_map_by_reference 2 1 st 0 e "m" 0
              {["p" := AInt 1]} "q" (AInt 2))
    as (st1 & a1 & m1 & HKV & _ & Ha1 & Hk & _ & Hrest).
  - reflexivity.
  - exact I.
  - reflexivity.
  - split; [split; [simpl; lia|discriminate]|].
    exists {["p" := AInt 1]}. split; [reflexivity|].
    intros k' r' Hk'. apply lookup_singleton_Some in Hk' as [_ Hk']. discriminate Hk'.
  - lia.
  - exact I.
  - exists st1, a1, m1. split; [exact HKV|]. split; [exact Ha1|]. split; [exact Hk|].
    exact Hrest.
Defined.

(** X5: WithContextMap ignores a nil or empty map (the store is left as
    it is, no context is created); for a map with entries it merges them
    into the stored context, creating it when absent: afterwards every key
    of the given map holds the given value and every other key holds what
    it held before.  The given map itself and all other cells are left
    unchanged. *)
Theorem X5_WithContextMap_merges st l e :
  errs st !! l = Some e →
  (∀ a, context e = Some a → is_Some (cells (mh st) !! a)) →
  (∀ m, len (mh st) m = 0 → WithContextMap st (Some l) m = Ok (st, Some l)) ∧
  (∀ am cm, cells (mh st) !! am = Some cm → cm ≠ ∅ →
     ∃ st1 a1 m1,
       WithContextMap st (Some l) (Some am) = Ok (st1, Some l) ∧
       deref st1 (Some l) = Ok (with_context e (Some a1)) ∧
       cells (mh st1) !! a1 = Some m1 ∧
       (∀ k, m1 !! k = match cm !! k with
                       | Some v => Some v
                       | None => content (mh st) (context e) !! k
                       end) ∧
       cells (mh st1) !! am = Some cm ∧
       (∀ x, x ≠ a1 → cells (mh st1) !! x = cells (mh st) !! x)).
Proof.
  intros He Hcell. split.
  { intros m Hlen. unfold WithContextMap. by case_decide. }
  intros am cm Ham Hcm.
  destruct (WithContextMap_effect st l e am cm He Hcell Ham Hcm)
    as (st1 & a1 & HM & He1 & _ & _ & _ & Ha1 & _ & Hc1 & Hp).
  exists st1, a1, (cm ∪ content (mh st) (context e)).
  split; [done|]. split; [by unfold deref; rewrite He1|]. split; [done|]. split.
  { intros k. destruct (cm !! k) as [v|] eqn:Hk.
    - by apply lookup_union_Some_l.
    - by apply lookup_union_r. }
  split; [|exact Hp].
  destruct (decide (am = a1)) as [Heq|Hne]; [|by rewrite Hp].
  rewrite Heq, Hc1. f_equal. rewrite <- Heq in Ha1.
  destruct (context e) as [a|]; simpl.
  - subst a. rewrite Ham. simpl. apply (idemp_L (∪)).
  - apply (right_id_L ∅ (∪)).
Qed.

Lemma X5_WithContextMap_witness :
  let e := mkError 500 "x" "y" "z" (Some 1) NilError in
  let h := MHeap (<[0 := {["b" := AInt 2; "a" := AInt 3]}]> (<[1 := {["a" := AInt 1]}]> ∅)) 2 in
  let st := State {[0 := e]} 1 h 0 in
  ∃ st1 a1 m1,
    WithContextMap st (Some 0) (Some 0) = Ok (st1, Some 0) ∧
    cells (mh st1) !! a1 = Some m1 ∧
    m1 !! "a" = Some (AInt 3) ∧ m1 !! "b" = Some (AInt 2).
Proof.
  intros e h st.
  destruct (X5_WithContextMap_merges st 0 e) as [_ Hmerge].
  - reflexivity.
  - intros a [= <-]. eexists. reflexivity.
  - destruct (Hmerge 0 {["b" := AInt 2; "a" := AInt 3]})
      as (st1 & a1 & m1 & HM & _ & Ha1 & Hk & _).
    + reflexivity.
    + apply insert_non_empty.
    + exists st1, a1, m1. split; [exact HM|]. split; [exact Ha1|].
      split; [exact (Hk "a")|exact (Hk "b")].
Defined.

(** X6: WithContextMap(m) is WithContextKV(k, v) called for each entry
    (k, v) of m in turn: the two give the same store and the same
    receiver, for every receiver (nil included) and every m. *)
Theorem X6_WithContextMap_is_WithContextKV_per_entry st p m :
  WithContextMap st p m = WithContextKV_all st p (entries (mh st) m).
Proof.
  destruct p as [l|]; [|by rewrite WithContextKV_all_nil_receiver].
  unfold WithContextMap. case_decide as Hlen.
  { by rewrite (len_zero_entries _ _ Hlen). }
  destruct (len_nonzero_cell _ _ Hlen) as (am & cm & -> & Ham & Hcm). simpl.
  rewrite Ham. destruct (map_to_list cm) as [|[k v] kvs] eqn:Hl.
  { by apply map_to_list_empty_iff in Hl. }
  change (WithContextKV_all st (Some l) ((k, v) :: kvs)) with
    ('(st1, p1) ← WithContextKV st (Some l) k v; WithContextKV_all st1 p1 kvs).
  assert (H1 : WithContextKV st (Some l) k v =
            (e ← deref st (Some l);
             let '(st0, a) := ensure_context st l e in
             Ok (set_mh st0 (map_assign (mh st0) a k v), Some l))) by done.
  rewrite H1. unfold deref.
  destruct (errs st !! l) as [e|] eqn:He; [|done]. simpl.
  unfold ensure_context. destruct (context e) as [a|] eqn:Hctx; simpl.
  - by rewrite (WithContextKV_all_existing kvs
                  (set_mh st (map_assign (mh st) a k v)) l e a He Hctx).
  - match goal with |- _ = WithContextKV_all ?s _ _ =>
      rewrite (WithContextKV_all_existing kvs s l
                 (with_context e (Some (next (mh st)))) (next (mh st)));
        [done| |done]
    end.
    simpl. apply lookup_insert_eq.
Qed.

(** X7: two WithContextKV calls on the same key leave the store exactly
    as the second call alone would; two calls on different keys leave the
    same store in either order. *)
Theorem X7_WithContextKV_last_write_wins_and_commutes st p k v1 v2 k' :
  ('(st1, p1) ← WithContextKV st p k v1; WithContextKV st1 p1 k v2)
    = WithContextKV st p k v2 ∧
  (k ≠ k' →
   ('(st1, p1) ← WithContextKV st p k v1; WithContextKV st1 p1 k' v2)
     = ('(st1, p1) ← WithContextKV st p k' v2; WithContextKV st1 p1 k v1)).
Proof.
  destruct p as [l|]; [|done]. split.
  - rewrite WithContextKV_twice. unfold WithContextKV, deref.
    destruct (errs st !! l) as [e|]; [|done]. simpl.
    destruct (ensure_context st l e) as [st0 a]. by rewrite map_assign_twice.
  - intros Hk. rewrite !WithContextKV_twice.
    destruct (errs st !! l) as [e|]; [|done].
    destruct (ensure_context st l e) as [st0 a]. by rewrite (map_assign_swap _ _ k k').
Qed.

Lemma X7_WithContextKV_witness :
  ('(st1, p1) ← WithContextKV not_found_state (Some 0) "a" (AInt 1);
   WithContextKV st1 p1 "b" (AInt 2))
  = ('(st1, p1) ← WithContextKV not_found_state (Some 0) "b" (AInt 2);
     WithContextKV st1 p1 "a" (AInt 1)).
Proof.
  destruct (X7_WithContextKV_last_write_wins_and_commutes not_found_state (Some 0)
              "a" (AInt 1) (AInt 2) "b") as [_ Hswap].
  apply Hswap. discriminate.
Defined.

(** X8: E(code, key, WithHTTPStatus(s), WithDetail(d), WithContext(ctx),
    WithCause(x)) gives the same store and the same Error as
    New(s, code, key, d, ctx, x). *)
Theorem X8_E_with_all_options_is_New fuel st s c k dt ctx x :
  E fuel st c k [WithHTTPStatus s; WithDetail dt; WithContext ctx; WithCause x]
    = New fuel st s c k dt ctx [x].
Proof.
  destruct (cloneMap fuel (mh st) ctx) as [[h r]| |] eqn:Hc;
    unfold E, New, apply_options, apply_option, deref, set_err, set_mh, alloc_err;
    simpl;
    repeat (first [rewrite lookup_insert_eq | rewrite Hc | rewrite insert_insert_eq];
            simpl);
    done.
Qed.

(** X9: Wrap with a cause that is not nil gives the same store and the
    same Error as New with that cause as its trailing argument. *)
Theorem X9_Wrap_with_cause_is_New fuel st cause0 s c k dt ctx :
  cause0 ≠ NilError →
  Wrap fuel st cause0 s c k dt ctx = New fuel st s c k dt ctx [cause0].
Proof.
  intros Hc. unfold Wrap, New.
  destruct cause0 as [|q|i msg|i msg inner]; try done;
    destruct (cloneMap fuel (mh st) ctx) as [[h r]| |]; simpl; try done;
    unfold set_cause, deref; simpl; rewrite lookup_insert_eq; simpl;
    unfold set_err; simpl; by rewrite insert_insert_eq.
Qed.

Lemma X9_Wrap_with_cause_witness :
  Wrap 0 empty_state (ErrorString 0 "row not found") 404 "customer.not_found"
    "not_found" "not found" None
  = New 0 empty_state 404 "customer.not_found" "not_found" "not found" None
      [ErrorString 0 "row not found"].
Proof. apply X9_Wrap_with_cause_is_New. discriminate. Defined.

(** X10: in the option list of E, two neighbouring options that assign
    different attributes can be exchanged: the store and the Error that E
    returns are the same. *)
Theorem X10_E_options_on_different_attributes_commute fuel st c k opts1 o1 o2 opts2 :
  attr_of o1 ≠ attr_of o2 →
  E fuel st c k (opts1 ++ o1 :: o2 :: opts2) = E fuel st c k (opts1 ++ o2 :: o1 :: opts2).
Proof.
  intros Hattr. rewrite !E_unfold, !apply_options_app.
  destruct (apply_options fuel _ _ opts1) as [st1| |]; simpl; try done.
  pose proof (apply_option_swap fuel st1 (Some (next_err st)) o1 o2 Hattr) as Hswap.
  destruct (apply_option fuel st1 (Some (next_err st)) o1) as [sa| |] eqn:H1,
           (apply_option fuel st1 (Some (next_err st)) o2) as [sb| |] eqn:H2;
    simpl in *; try done; try (by rewrite Hswap); try (by rewrite <- Hswap).
Qed.

Lemma X10_E_options_witness :
  E 0 empty_state "c" "k" [WithHTTPStatus 400; WithDetail "payload invalid"]
  = E 0 empty_state "c" "k" [WithDetail "payload invalid"; WithHTTPStatus 400].
Proof.
  apply (X10_E_options_on_different_attributes_commute 0 empty_state "c" "k" []
           (WithHTTPStatus 400) (WithDetail "payload invalid") []).
  discriminate.
Defined.

(** X11: New returns a new Error whose getters give back the arguments
    it was called with; Unwrap() is the first trailing cause, or nil when
    none was passed, and a cause that was passed is found by errors.Is.
    No existing Error and no existing map cell (the given context
    included) is changed. *)
Theorem X11_New_stores_its_arguments fuel d st status c k dt ctx causes :
  valid_map d (mh st) ctx → d ≤ fuel →
  ∃ st1 l,
    New fuel st status c k dt ctx causes = Ok (st1, Some l) ∧
    l = next_err st ∧
    HTTPStatus st1 (Some l) = Ok status ∧ Code st1 (Some l) = Ok c ∧
    Key st1 (Some l) = Ok k ∧ Detail st1 (Some l) = Ok dt ∧
    Unwrap st1 (Some l) = Ok (hd NilError causes) ∧
    (hd NilError causes ≠ NilError →
       ∀ f, 1 ≤ f → errors_Is f st1 (PtrError (Some l)) (hd NilError causes) = Ok true) ∧
    (∀ q, q ≠ l → errs st1 !! q = errs st !! q) ∧
    preserves (fun x => x < next (mh st)) (mh st) (mh st1) ∧
    next_id st1 = next_id st.
Proof.
  intros Hv Hle.
  destruct (New_spec fuel d st status c k dt ctx causes) as (h & r & (_ & Hp & _) & HN);
    [done..|].
  eexists _, _. split; [exact HN|]. split; [done|].
  match type of HN with _ = Ok (?s, _) => set (st1 := s) in * end.
  set (e := mkError status c k dt r (hd NilError causes)) in *.
  assert (He : errs st1 !! next_err st = Some e) by apply lookup_insert_eq.
  unfold HTTPStatus, Code, Key, Detail, Unwrap, deref. rewrite He.
  do 5 (split; [done|]). split; [|split; [|done]].
  - intros Hc [|f] Hf; [lia|]. rewrite errors_Is_not_nil by done.
    by apply (errors_is_cause f st1 _ e).
  - intros q Hq. simpl. by rewrite lookup_insert_ne.
Qed.

Lemma X11_New_witness :
  ∃ st1 l,
    New 0 empty_state 500 "internal.error" "internal" "internal error" None
      [ErrorString 0 "driver: bad connection"] = Ok (st1, Some l) ∧
    Unwrap st1 (Some l) = Ok (ErrorString 0 "driver: bad connection") ∧
    Code st1 (Some l) = Ok "internal.error".
Proof.
  destruct (X11_New_stores_its_arguments 0 0 empty_state 500 "internal.error"
              "internal" "internal error" None [ErrorString 0 "driver: bad connection"])
    as (st1 & l & HN & _ & _ & HCode & _ & _ & HUnwrap & _); [exact I|lia|].
  exists st1, l. split; [exact HN|]. split; [exact HUnwrap|exact HCode].
Defined.

(** X12: the package keeps every stored context non-empty: if in a store
    every Error's context is nil or an allocated map with entries, the
    same holds after New, Wrap, E, Ensure, WithContextKV, WithContextMap
    and Context(); and in such a store Context() returns nil exactly when
    the Error has no context. *)
Theorem X12_stored_contexts_are_never_empty fuel st :
  contexts_nonempty st →
  (∀ status c k dt ctx causes st' p, valid_map fuel (mh st) ctx →
     New fuel st status c k dt ctx causes = Ok (st', p) → contexts_nonempty st') ∧
  (∀ cause0 status c k dt ctx st' p, valid_map fuel (mh st) ctx →
     Wrap fuel st cause0 status c k dt ctx = Ok (st', p) → contexts_nonempty st') ∧
  (∀ c k opts st' p, Forall (option_ok fuel (mh st)) opts →
     E fuel st c k opts = Ok (st', p) → contexts_nonempty st') ∧
  (∀ err st' p, Ensure fuel st err = Ok (st', p) → contexts_nonempty st') ∧
  (∀ p k v st' p', WithContextKV st p k v = Ok (st', p') → contexts_nonempty st') ∧
  (∀ p m st' p', WithContextMap st p m = Ok (st', p') → contexts_nonempty st') ∧
  (∀ l e st' r, errs st !! l = Some e → valid_map fuel (mh st) (context e) →
     Context fuel st (Some l) = Ok (st', r) →
     contexts_nonempty st' ∧ (r = None ↔ context e = None)).
Proof.
  intros Hinv.
  assert (HWrapNil : ∀ cause0 status c k dt st' p,
            Wrap fuel st cause0 status c k dt None = Ok (st', p) → contexts_nonempty st').
  { intros cause0 status c k dt st' p HW. rewrite Wrap_nil_context in HW.
    injection HW as <- <-.
    eapply (contexts_nonempty_update st _ (next_err st));
      [done| |reflexivity|reflexivity]; by left. }
  split; [|split; [|split; [|split; [|split; [|split]]]]].
  - intros status c k dt ctx causes st' p Hv HN.
    destruct (New_spec fuel fuel st status c k dt ctx causes) as (h & r & Hpost & HN');
      [done..|].
    rewrite HN' in HN. injection HN as <- <-.
    by eapply (contexts_nonempty_clone st _ (next_err st)).
  - intros cause0 status c k dt ctx st' p Hv HW.
    destruct (Wrap_spec fuel fuel st cause0 status c k dt ctx) as (h & r & Hpost & HW');
      [done..|].
    rewrite HW' in HW. injection HW as <- <-.
    by eapply (contexts_nonempty_clone st _ (next_err st)).
  - intros c k opts st' p Hall HE. apply E_inv in HE as [_ Hrun].
    eapply (apply_options_contexts_nonempty fuel (next_err st) opts
              (alloc_err st (default_Error c k)).1 st'); [|exact Hall|exact Hrun].
    eapply (contexts_nonempty_update st _ (next_err st));
      [done| |reflexivity|reflexivity]; by left.
  - intros err st' p HE. unfold Ensure in HE.
    destruct err as [|q|i msg|i msg inner]; try (by injection HE as <- <-).
    + simpl in HE. by eapply HWrapNil.
    + destruct (errors_As (WrapError i msg inner)); [by injection HE as <- <-|].
      by eapply HWrapNil.
  - intros p k v st' p'. by apply WithContextKV_contexts_nonempty.
  - intros p m st' p'. by apply WithContextMap_contexts_nonempty.
  - intros l e st' r He Hv HC.
    destruct (Context_spec fuel fuel st l e) as (h & r' & HC' & Hpost); [done..|].
    rewrite HC' in HC. injection HC as <- <-.
    pose proof Hpost as (Hle & Hp & _ & _ & Hlen). simpl in Hle, Hp, Hlen. split.
    + apply (contexts_nonempty_step st); [done..| |by left].
      intros a m Ha Hm Hne. exists m. split; [|done]. simpl. by rewrite Hp.
    + rewrite Hlen. destruct (context e) as [a|] eqn:Hctx; [|done].
      destruct (Hinv l e a He Hctx) as (_ & m & Hm & Hne). simpl. rewrite Hm.
      split; [|done]. intros Hsz. by apply map_size_empty_iff in Hsz.
Qed.

Lemma X12_stored_contexts_witness :
  ∃ st' p, WithContextKV not_found_state (Some 0) "customer_id" (AStr "42") = Ok (st', p) ∧
    contexts_nonempty st'.
Proof.
  destruct (X12_stored_contexts_are_never_empty 0 not_found_state)
    as (_ & _ & _ & _ & HKV & _).
  - intros l e a He Hctx. unfold not_found_state in He. simpl in He.
    apply lookup_singleton_Some in He as [_ <-]. discriminate Hctx.
  - eexists _, _. split; [reflexivity|].
    apply (HKV (Some 0) "customer_id" (AStr "42") _ _ eq_refl).
Defined.

(** X13: causes only ever point to older Errors: if that holds in a store
    it holds after New, Wrap, E and Ensure (given a cause that points to
    Errors of the store), and after WithContextKV, WithContextMap and
    Context(); and in such a store Error() returns on every Error, once
    the fuel exceeds the Error's address. *)
Theorem X13_cause_chains_stay_well_founded fuel st :
  causes_ok st →
  (∀ status c k dt ctx causes st' p,
     ptrs_below st (next_err st) (hd NilError causes) →
     New fuel st status c k dt ctx causes = Ok (st', p) → causes_ok st') ∧
  (∀ cause0 status c k dt ctx st' p,
     ptrs_below st (next_err st) cause0 →
     Wrap fuel st cause0 status c k dt ctx = Ok (st', p) → causes_ok st') ∧
  (∀ c k opts st' p,
     Forall (cause_arg_ok st (next_err st)) opts →
     E fuel st c k opts = Ok (st', p) → causes_ok st') ∧
  (∀ err st' p,
     ptrs_below st (next_err st) err →
     Ensure fuel st err = Ok (st', p) → causes_ok st') ∧
  (∀ p k v st' p', WithContextKV st p k v = Ok (st', p') → causes_ok st') ∧
  (∀ p m st' p', WithContextMap st p m = Ok (st', p') → causes_ok st') ∧
  (∀ p st' r, Context fuel st p = Ok (st', r) → causes_ok st') ∧
  (∀ l f, is_Some (errs st !! l) → l < f → is_Ok (Error_str f st (Some l))).
Proof.
  intros Hok.
  assert (HNew : ∀ status c k dt ctx causes st' p,
            ptrs_below st (next_err st) (hd NilError causes) →
            New fuel st status c k dt ctx causes = Ok (st', p) → causes_ok st').
  { intros status c k dt ctx causes st' p Hc HN. unfold New in HN.
    destruct (cloneMap fuel (mh st) ctx) as [[h r]| |]; simpl in HN; try done.
    injection HN as <- <-.
    eapply (causes_ok_insert st _ (next_err st)); [done| |reflexivity].
    by destruct causes. }
  assert (HWrap : ∀ cause0 status c k dt ctx st' p,
            ptrs_below st (next_err st) cause0 →
            Wrap fuel st cause0 status c k dt ctx = Ok (st', p) → causes_ok st').
  { intros cause0 status c k dt ctx st' p Hc HW.
    assert (HW' : ∃ h r, st' = State
              (<[next_err st := mkError status c k dt r (wrapped_cause st cause0)]> (errs st))
              (S (next_err st)) h (wrapped_next_id st cause0)).
    { unfold Wrap, New in HW.
      destruct cause0; simpl in HW;
        destruct (cloneMap fuel (mh st) ctx) as [[h r]| |]; simpl in HW; try done;
        unfold set_cause, deref in HW; simpl in HW;
        rewrite lookup_insert_eq in HW; simpl in HW; injection HW as <- <-;
        exists h, r; unfold set_err; simpl; by rewrite insert_insert_eq. }
    destruct HW' as (h & r & ->).
    eapply (causes_ok_insert st _ (next_err st)); [done| |reflexivity].
    simpl. by destruct cause0. }
  split; [exact HNew|]. split; [exact HWrap|].
  split; [|split; [|split; [|split; [|split]]]].
  - intros c k opts st' p Hall HE. apply E_inv in HE as [_ Hrun].
    assert (Hok0 : causes_ok (alloc_err st (default_Error c k)).1).
    { by eapply (causes_ok_insert st _ (next_err st) (default_Error c k)). }
    eapply (apply_options_causes_ok fuel (next_err st) opts
              (alloc_err st (default_Error c k)).1 st'); [done| |exact Hrun].
    eapply Forall_impl; [exact Hall|]. intros [s|dt|ctx|x]; simpl; try done.
    apply ptrs_below_mono. intros q Hq. simpl.
    destruct (decide (next_err st = q)) as [->|Hne].
    + rewrite lookup_insert_eq. by eexists.
    + by rewrite lookup_insert_ne.
  - intros err st' p Hc HE. unfold Ensure in HE.
    destruct err as [|q|i msg|i msg inner]; try (by injection HE as <- <-).
    + simpl in HE. by eapply HWrap.
    + destruct (errors_As (WrapError i msg inner)); [by injection HE as <- <-|].
      by eapply HWrap.
  - intros p k v st' p' HKV. destruct p as [l|]; [|by injection HKV as <- <-].
    unfold WithContextKV, deref in HKV.
    destruct (errs st !! l) as [e|] eqn:He; [|done]. simpl in HKV.
    pose proof (ensure_context_frame st l e He) as Hframe.
    destruct (ensure_context st l e) as [st1 a]. injection HKV as <- <-.
    apply (causes_ok_same_errs st1); [done|]. by eapply causes_ok_only_context.
  - intros p m st' p' HM. destruct p as [l|]; [|by injection HM as <- <-].
    unfold WithContextMap, deref in HM. case_decide; [by injection HM as <- <-|].
    destruct (errs st !! l) as [e|] eqn:He; [|done]. simpl in HM.
    pose proof (ensure_context_frame st l e He) as Hframe.
    destruct (ensure_context st l e) as [st1 a]. injection HM as <- <-.
    apply (causes_ok_same_errs st1); [done|]. by eapply causes_ok_only_context.
  - intros p st' r HC. unfold Context in HC.
    destruct (deref st p) as [e| |]; simpl in HC; try done.
    destruct (cloneMap fuel (mh st) (context e)) as [[h r']| |]; simpl in HC; try done.
    injection HC as <- <-. by apply (causes_ok_same_errs st).
  - intros l f Hl Hlt. by apply Error_str_total.
Qed.

Lemma X13_cause_chains_witness :
  ∃ st' p,
    Wrap 0 not_found_state (PtrError (Some 0)) 500 "repository.failure" "internal"
      "repository failure" None = Ok (st', p) ∧
    causes_ok st'.
Proof.
  destruct (X13_cause_chains_stay_well_founded 0 not_found_state) as (_ & HWrap & _).
  - intros l e He. unfold not_found_state in He. simpl in He.
    apply lookup_singleton_Some in He as [_ <-]. exact I.
  - eexists _, _. split; [reflexivity|].
    eapply (HWrap (PtrError (Some 0)) 500%Z "repository.failure" "internal"
              "repository failure" None); [|reflexivity].
    split; [simpl; lia|]. eexists. reflexivity.
Defined.

(** X14: the diagnostic string of an Error made by Wrap is
    "<code> [<key>] (<status>): " followed by the message of the cause:
    "unknown" when no cause was given, and otherwise the message the
    cause had before the call. *)
Theorem X14_Wrap_then_Error fuel d st cause0 status c k dt ctx :
  causes_ok st → ptrs_below st (next_err st) cause0 →
  valid_map d (mh st) ctx → d ≤ fuel →
  ∃ st1 l,
    Wrap fuel st cause0 status c k dt ctx = Ok (st1, Some l) ∧
    ∀ f, l < f →
      ∃ s, Error_str f st1 (Some l) =
             Ok ((c ++ " [" ++ k ++ "] (" ++ format_int status ++ ")") ++ ": " ++ s) ∧
           (cause0 = NilError → s = "unknown") ∧
           (cause0 ≠ NilError → error_message f st cause0 = Ok s).
Proof.
  intros Hok Hc Hv Hle.
  destruct (Wrap_spec fuel d st cause0 status c k dt ctx) as (h & r & _ & HW); [done..|].
  eexists _, _. split; [exact HW|].
  match type of HW with _ = Ok (?s, _) => set (st1 := s) in * end.
  intros [|f] Hf; [lia|].
  assert (Hold : ∀ g q, q < next_err st →
            Error_str g st1 (Some q) = Error_str g st (Some q)).
  { apply Error_str_older; [done|]. intros q Hq. simpl. rewrite lookup_insert_ne; [done|lia]. }
  rewrite (Error_str_unfold f st1 (next_err st) _ (lookup_insert_eq _ _ _)).
  destruct cause0 as [|[q|]|i msg|i msg inner].
  - exists "unknown". by repeat split.
  - destruct Hc as [Hq Hsome].
    destruct (Error_str_total st Hok f q) as [s Hs]; [lia|done|].
    exists s. split; [|split; [done|]].
    + change (cause _) with (PtrError (Some q)). cbv beta iota. by rewrite Hold, Hs.
    + intros _. apply (Error_str_fuel_mono f); [done|lia].
  - exists "<nil>". split; [|split; [done|]].
    + change (cause _) with (PtrError None). cbv beta iota. by rewrite Error_str_nil.
    + intros _. apply Error_str_nil.
  - exists msg. by repeat split.
  - exists msg. by repeat split.
Qed.

Lemma X14_Wrap_then_Error_witness :
  ∃ st1 l,
    Wrap 0 empty_state NilError 404 "customer.not_found" "not_found" "not found" None
      = Ok (st1, Some l) ∧
    Error_str 1 st1 (Some l) = Ok "customer.not_found [not_found] (404): unknown".
Proof.
  destruct (X14_Wrap_then_Error 0 0 empty_state NilError 404 "customer.not_found"
              "not_found" "not found" None) as (st1 & l & HW & HE).
  - intros l e He. discriminate He.
  - exact I.
  - exact I.
  - lia.
  - exists st1, l. split; [exact HW|].
    assert (Hl : l = 0).
    { unfold Wrap, New in HW. simpl in HW. by injection HW as _ <-. }
    destruct (HE 1) as (s & Hs & Hnil & _); [lia|].
    rewrite Hs, (Hnil eq_refl). reflexivity.
Defined.

(** X15: Wrap adds exactly one link to the chain that errors.Is walks:
    for a target that is neither nil nor the new Error itself, errors.Is
    from the new Error answers what errors.Is from its cause answered
    before the call (the cause being the "unknown" error when nil was
    given), with one more step. *)
Theorem X15_errors_Is_through_Wrap fuel d st cause0 status c k dt ctx :
  causes_ok st → ptrs_below st (next_err st) cause0 →
  valid_map d (mh st) ctx → d ≤ fuel →
  ∃ st1 l,
    Wrap fuel st cause0 status c k dt ctx = Ok (st1, Some l) ∧
    ∀ f target, target ≠ NilError → target ≠ PtrError (Some l) →
      errors_Is (S f) st1 (PtrError (Some l)) target
        = errors_Is f st (wrapped_cause st cause0) target.
Proof.
  intros Hok Hc Hv Hle.
  destruct (Wrap_spec fuel d st cause0 status c k dt ctx) as (h & r & _ & HW); [done..|].
  eexists _, _. split; [exact HW|].
  match type of HW with _ = Ok (?s, _) => set (st1 := s) in * end.
  intros f target Hnil Hself.
  assert (Hwc : wrapped_cause st cause0 ≠ NilError) by apply wrapped_cause_not_nil.
  assert (Hb : ptrs_below st (next_err st) (wrapped_cause st cause0)).
  { by destruct cause0. }
  rewrite errors_Is_not_nil by done.
  assert (Heq : error_eqb (PtrError (Some (next_err st))) target = false).
  { destruct target as [|[q|]|?|?]; try done. simpl. apply bool_decide_eq_false.
    intros Hq. apply Hself. congruence. }
  rewrite (errors_is_step f st1 (next_err st) _ target (lookup_insert_eq _ _ _));
    [|exact Hwc|exact Heq].
  change (cause _) with (wrapped_cause st cause0).
  rewrite (errors_is_older st st1 (next_err st) target Hok); [|
    intros q Hq; simpl; rewrite lookup_insert_ne; [done|lia] | exact Hb].
  unfold errors_Is. destruct (wrapped_cause st cause0); [done|..]; by destruct target.
Qed.

Lemma X15_errors_Is_through_Wrap_witness :
  ∃ st1 l,
    Wrap 0 empty_state NilError 404 "customer.not_found" "not_found" "not found" None
      = Ok (st1, Some l) ∧
    errors_Is 1 st1 (PtrError (Some l)) (ErrorString 0 "unknown") = Ok true.
Proof.
  destruct (X15_errors_Is_through_Wrap 0 0 empty_state NilError 404 "customer.not_found"
              "not_found" "not found" None) as (st1 & l & HW & HI).
  - intros l e He. discriminate He.
  - exact I.
  - exact I.
  - lia.
  - exists st1, l. split; [exact HW|].
    rewrite HI; [reflexivity|done|done].
Defined.

(** X16: Ensure(nil) is nil; an input that is itself an Error pointer is
    returned as it is; in both cases the store is unchanged.  An input
    with no Error anywhere in its Unwrap chain is wrapped in a new Error
    with status 500, code "internal.error", key "internal", detail
    "internal error" and no context, whose cause is the input, found by
    errors.Is; no existing Error is changed. *)
Theorem X16_Ensure_nil_Error_and_plain_errors fuel st :
  Ensure fuel st NilError = Ok (st, None) ∧
  (∀ p, Ensure fuel st (PtrError p) = Ok (st, p)) ∧
  (∀ err, err ≠ NilError → first_Error (unwrap_chain err) = None →
     ∃ st' l,
       Ensure fuel st err = Ok (st', Some l) ∧
       l = next_err st ∧
       (∀ q, q ≠ l → errs st' !! q = errs st !! q) ∧
       HTTPStatus st' (Some l) = Ok 500%Z ∧
       Code st' (Some l) = Ok "internal.error" ∧
       Key st' (Some l) = Ok "internal" ∧
       Detail st' (Some l) = Ok "internal error" ∧
       (∀ f, Context f st' (Some l) = Ok (st', None)) ∧
       Unwrap st' (Some l) = Ok err ∧
       (∀ f, 1 ≤ f → errors_Is f st' (PtrError (Some l)) err = Ok true)).
Proof.
  split; [done|]. split; [done|].
  intros err Hne Hfirst. rewrite <- errors_As_first_Error in Hfirst.
  pose proof (Wrap_nil_context fuel st err defaultHTTPStatus "internal.error"
                "internal" "internal error") as HW.
  assert (Hcause : wrapped_cause st err = err) by (by destruct err).
  rewrite Hcause in HW.
  set (e := mkError defaultHTTPStatus "internal.error" "internal" "internal error" None err) in *.
  match type of HW with _ = Ok (?s, _) => set (st' := s) in * end.
  assert (He : errs st' !! next_err st = Some e) by apply lookup_insert_eq.
  exists st', (next_err st). split.
  { unfold Ensure. rewrite Hfirst. destruct err; try done; exact HW. }
  split; [done|]. split.
  { intros q Hq. simpl. by rewrite lookup_insert_ne. }
  unfold HTTPStatus, Code, Key, Detail, Unwrap, Context, deref. rewrite He.
  repeat split.
  - intros f. simpl. by rewrite cloneMap_nil.
  - intros [|f] Hf; [lia|]. rewrite errors_Is_not_nil by done.
    by apply (errors_is_cause f st' _ e).
Qed.

Lemma X16_Ensure_witness :
  ∃ st' l,
    Ensure 0 empty_state (ErrorString 0 "boom") = Ok (st', Some l) ∧
    Code st' (Some l) = Ok "internal.error" ∧
    Unwrap st' (Some l) = Ok (ErrorString 0 "boom").
Proof.
  destruct (X16_Ensure_nil_Error_and_plain_errors 0 empty_state) as (_ & _ & Hwrap).
  destruct (Hwrap (ErrorString 0 "boom")) as
    (st' & l & HE & _ & _ & _ & HCode & _ & _ & _ & HUnwrap & _);
    [discriminate|reflexivity|].
  exists st', l. split; [exact HE|]. split; [exact HCode|exact HUnwrap].
Defined.

End Further.
